(** * Process sandbox: host side (experiments/process_sandbox/libsandbox.cc)

    A shallow embedding of the host half of the process sandbox: the
    pagemap service that validates the requests of a sandboxed child
    ([MemoryServiceProvider]), the call protocol ([SandboxedLibrary::send]),
    the child launcher ([SandboxedLibrary::start_child]) and the
    overflow-checked allocation entry point
    ([SandboxedLibrary::alloc_in_sandbox]). *)

From Stdlib Require Import ZArith Lia Bool List.
From stdpp Require Import base option list strings gmap.
From Stdlib Require Import Ascii.

Local Open Scope Z_scope.

(** ** Machine integers

    [uintptr_t] and [size_t] are 64 bits wide on the platforms the sandbox
    supports.  Values are kept in [Z]; every operation the source performs
    in a fixed width has its wrap-around written out. *)
Module Machine.

Definition modulus : Z := 2 ^ 64.

(** Reduction to [size_t] / [uintptr_t]. *)
Definition wrap (x : Z) : Z := x mod modulus.

(** [static_cast<uint8_t>(x)]. *)
Definition u8 (x : Z) : Z := x mod 256.

(** [1ULL << n].  For [n < 64] this is the C++ value.  C++ leaves the
    result undefined for [n >= 64]; the model takes what the shift
    instructions of x86-64 and AArch64 produce, which reduce the count
    modulo 64. *)
Definition shl1 (n : Z) : Z := Z.shiftl 1 (n mod 64) mod modulus.

(** An address-sized value as it arrives in a request. *)
Definition is_word (x : Z) : Prop := 0 <= x < modulus.

End Machine.
Import Machine.

(** ** The allocator library the service is built on

    [snmalloc] is an external library: the service only calls into it.  Its
    constants and its chunk-map are therefore an interface; the service is
    verified against every implementation of it. *)
Class Snmalloc := {
  (** [snmalloc::SUPERSLAB_SIZE], the bucket granularity of the pagemap. *)
  SUPERSLAB_SIZE : Z;
  (** [snmalloc::NUM_LARGE_CLASSES]. *)
  NUM_LARGE_CLASSES : Z;
  (** [snmalloc::large_sizeclass_to_size]. *)
  large_sizeclass_to_size : Z -> Z;
  (** The process-global pagemap, [snmalloc::GlobalPagemap::pagemap()].
      [DefaultChunkMap<>] is a stateless view of the same table. *)
  ChunkMap : Type;
  (** [pm.get(p)]. *)
  chunkmap_get : ChunkMap -> Z -> Z;
  (** [cpm.set(p, x)] with [x] an [uint8_t]. *)
  chunkmap_set : ChunkMap -> Z -> Z -> ChunkMap;
  (** [pm.set_large_size(p, size)]. *)
  set_large_size : ChunkMap -> Z -> Z -> ChunkMap;
  (** [pm.clear_large_size(p, size)]. *)
  clear_large_size : ChunkMap -> Z -> Z -> ChunkMap;
  (** [cpm.index_for_address(p)]. *)
  index_for_address : Z -> Z;
  (** The granularity is a non-zero [size_t] constant. *)
  SUPERSLAB_SIZE_pos : 0 < SUPERSLAB_SIZE
}.

(** ** The wire format (host_service_calls.h) *)

(** Modelled from the spec: the enumeration [HostServiceCallID] of
    host_service_calls.h, which is not among the sources.  The spec lists
    its members: push/pop a free large block, reserve a large block,
    set/extend/clear a metadata range.  The names are the ones
    libsandbox.cc switches on.  [UnknownCall] stands for a [kind] field
    whose value, read off the socket, is none of the enumerators. *)
Inductive HostServiceCallID :=
  | MemoryProviderPushLargeStack
  | MemoryProviderPopLargeStack
  | MemoryProviderReserve
  | ChunkMapSet
  | ChunkMapSetRange
  | ChunkMapClearRange
  | UnknownCall (raw : Z).

(** Modelled from the spec: the request record [{kind, arg0, arg1}] with
    address-sized arguments (host_service_calls.h is not among the
    sources). *)
Record HostServiceRequest := {
  kind : HostServiceCallID;
  arg0 : Z;
  arg1 : Z
}.

(** Modelled from the spec: the response record [{error, result}]. *)
Record HostServiceResponse := {
  error : Z;
  result : Z
}.

Definition is_metadata_call (k : HostServiceCallID) : bool :=
  match k with
  | ChunkMapSet | ChunkMapSetRange | ChunkMapClearRange => true
  | _ => false
  end.

Definition is_large_block_call (k : HostServiceCallID) : bool :=
  match k with
  | MemoryProviderPushLargeStack | MemoryProviderPopLargeStack
  | MemoryProviderReserve => true
  | _ => false
  end.

(** ** The memory provider of one sandbox (sandbox.hh) *)

(** Modelled from the spec: [SharedMemoryProvider] is declared in
    sandbox.hh, which is not among the sources.  The spec gives a Memory
    Range as [(owner_allocator, base, size)] and a pool of free large blocks
    per size class that is pushed to and popped from. *)
Record SharedMemoryProvider := {
  base : Z;
  size : Z;
  large_stack : gmap Z (list Z)
}.

(** The range is a span of the 64-bit address space whose end is itself an
    address. *)
Definition provider_wf (p : SharedMemoryProvider) : Prop :=
  0 <= base p /\ 0 <= size p /\ base p + size p < modulus.

(** Modelled from the spec: [SharedMemoryProvider::contains(ptr, sz)], the
    span [[ptr, ptr + sz)] lies entirely inside the Memory Range. *)
Definition contains (p : SharedMemoryProvider) (ptr sz : Z) : bool :=
  (base p <=? ptr) && (ptr + sz <=? base p + size p).

(** Modelled from the spec: the stack of free blocks of one size class. *)
Definition pool (p : SharedMemoryProvider) (c : Z) : list Z :=
  default [] (large_stack p !! c).

(** Modelled from the spec: [push_large_stack(slab, large_class)]. *)
Definition push_large_stack (p : SharedMemoryProvider) (slab c : Z)
  : SharedMemoryProvider :=
  {| base := base p; size := size p;
     large_stack := <[c := slab :: pool p c]> (large_stack p) |}.

(** What [pop_large_stack] returns when the pool of the class has no block
    is decided in sandbox.hh, and the spec is silent on it.  The address is
    a parameter of the model, free to depend on the provider and on the
    class, and the service is verified for every choice of it. *)
Class EmptyPool := {
  empty_pop : SharedMemoryProvider -> Z -> Z
}.

(** Modelled from the spec: [pop_large_stack(large_class)].  The spec has
    that a push followed by a pop yields the pushed block and returns the
    pool to its prior occupancy.  A pool without a block has nothing to
    give up: it stays as it is, and the address returned is [empty_pop]. *)
Definition pop_large_stack `{EmptyPool} (p : SharedMemoryProvider) (c : Z)
  : Z * SharedMemoryProvider :=
  match pool p c with
  | [] => (empty_pop p c, p)
  | slab :: rest =>
      (slab, {| base := base p; size := size p;
                large_stack := <[c := rest]> (large_stack p) |})
  end.

(** ** The pagemap service ([MemoryServiceProvider]) *)
Section Service.
Context `{Snmalloc} `{EmptyPool}.

(** [SharedMemoryProvider::reserve<true>(large_class)] is declared in
    sandbox.hh and the spec only names it; the service is verified for
    every behaviour of it.  It returns the reserved address and the
    provider it leaves behind. *)
Variable reserve : SharedMemoryProvider -> Z -> Z * SharedMemoryProvider.

(** [struct Sandbox].  The source holds two pointers, to the provider and
    to the page that the child maps read-only; every sandbox has its own
    of each, so the objects are kept with the registration and a write
    through a pointer is a write to the entry of [ranges].  The page is
    indexed as the source indexes it, [shared_page[k]], and C does not
    check [k] against the length of the page. *)
Record Sandbox := {
  memory_provider : SharedMemoryProvider;
  shared_page : gmap Z Z
}.

Definition with_provider (s : Sandbox) (p : SharedMemoryProvider) : Sandbox :=
  {| memory_provider := p; shared_page := shared_page s |}.

Definition with_page (s : Sandbox) (pg : gmap Z Z) : Sandbox :=
  {| memory_provider := memory_provider s; shared_page := pg |}.

(** The lambda [check_large_update]: it sets [entries] and returns the
    result of the range check. *)
Definition check_large_update (s : Sandbox) (rpc : HostServiceRequest)
  : Z * bool :=
  let alloc_size := shl1 (arg1 rpc) in
  (alloc_size / SUPERSLAB_SIZE,
   contains (memory_provider s) (arg0 rpc) alloc_size).

(** One turn of the copy loop:
    [s.shared_page[index + i] = pm.get(pointer_offset(address, i * SUPERSLAB_SIZE))]. *)
Definition copy_entry (pm : ChunkMap) (address index : Z)
    (page : gmap Z Z) (i : Z) : gmap Z Z :=
  <[wrap (index + i) :=
      chunkmap_get pm (wrap (address + wrap (i * SUPERSLAB_SIZE)))]> page.

(** [for (size_t i = 0; i < entries; i++) ...]. *)
Definition copy_entries (pm : ChunkMap) (address index entries : Z)
    (page : gmap Z Z) : gmap Z Z :=
  foldl (copy_entry pm address index) page (seqZ 0 entries).

(** The tail of [validate_and_insert]: the copy into the shared page is
    guarded by [safe]. *)
Definition propagate (safe : bool) (pm : ChunkMap) (s : Sandbox)
    (address index entries : Z) : bool * ChunkMap * Sandbox :=
  (safe, pm,
   if safe
   then with_page s (copy_entries pm address index entries (shared_page s))
   else s).

(** [MemoryServiceProvider::validate_and_insert].  [None] is the
    [assert(0)] of the default case. *)
Definition validate_and_insert (pm : ChunkMap) (s : Sandbox)
    (rpc : HostServiceRequest) : option (bool * ChunkMap * Sandbox) :=
  let address := arg0 rpc in
  let index := index_for_address (arg0 rpc) in
  match kind rpc with
  | ChunkMapSet =>
      let safe := contains (memory_provider s) address SUPERSLAB_SIZE in
      let pm' := if safe then chunkmap_set pm (arg0 rpc) (u8 (arg1 rpc))
                 else pm in
      Some (propagate safe pm' s address index 1)
  | ChunkMapSetRange =>
      let '(entries, safe) := check_large_update s rpc in
      let pm' := if safe then set_large_size pm address (shl1 (arg1 rpc))
                 else pm in
      Some (propagate safe pm' s address index entries)
  | ChunkMapClearRange =>
      let '(entries, safe) := check_large_update s rpc in
      let pm' := if safe then clear_large_size pm address (shl1 (arg1 rpc))
                 else pm in
      Some (propagate safe pm' s address index entries)
  | _ => None
  end.

(** The lambda [is_large_sizeclass]. *)
Definition is_large_sizeclass (large_size : Z) : bool :=
  large_size <? NUM_LARGE_CLASSES.

Definition rejected : HostServiceResponse := {| error := 1; result := 0 |}.

(** The [switch (rpc.kind)] of [run], from [HostServiceResponse reply{1, 0}]
    up to the [write]: the reply, and the pagemap and the sandbox as the
    call leaves them.  The switch has no default, so a [kind] outside the
    enumeration falls through with the initial reply. *)
Definition dispatch (pm : ChunkMap) (s : Sandbox) (rpc : HostServiceRequest)
  : option (HostServiceResponse * ChunkMap * Sandbox) :=
  match kind rpc with
  | MemoryProviderPushLargeStack =>
      let block := arg0 rpc in
      let large_size := u8 (arg1 rpc) in
      if negb (is_large_sizeclass large_size)
         || negb (contains (memory_provider s) block
                    (large_sizeclass_to_size large_size))
      then Some (rejected, pm, s)
      else Some ({| error := 0; result := 0 |}, pm,
                 with_provider s
                   (push_large_stack (memory_provider s) block large_size))
  | MemoryProviderPopLargeStack =>
      let large_size := u8 (arg1 rpc) in
      if negb (is_large_sizeclass large_size)
      then Some (rejected, pm, s)
      else
        let '(block, p) := pop_large_stack (memory_provider s) large_size in
        Some ({| error := 0; result := block |}, pm, with_provider s p)
  | MemoryProviderReserve =>
      let large_size := u8 (arg1 rpc) in
      if negb (is_large_sizeclass large_size)
      then Some (rejected, pm, s)
      else
        let '(block, p) := reserve (memory_provider s) large_size in
        Some ({| error := 0; result := block |}, pm, with_provider s p)
  | ChunkMapSet | ChunkMapSetRange | ChunkMapClearRange =>
      match validate_and_insert pm s rpc with
      | Some (safe, pm', s') =>
          Some ({| error := if safe then 0 else 1; result := 0 |}, pm', s')
      | None => None
      end
  | UnknownCall _ => Some (rejected, pm, s)
  end.

(** What [read(fd, &rpc, sizeof(HostServiceRequest))] delivers. *)
Inductive ReadResult :=
  | ShortRead
  | WholeRequest (rpc : HostServiceRequest).

(** What [poller.poll(fd, eof)] reports. *)
Inductive PollEvent :=
  | Eof (fd : Z)
  | Readable (fd : Z) (r : ReadResult).

(** The service: the canonical pagemap, the map [ranges], and what it has
    done on its descriptors so far ([close] and [write], oldest first). *)
Record Service := {
  pagemap : ChunkMap;
  ranges : gmap Z Sandbox;
  closed : list Z;
  written : list (Z * HostServiceResponse)
}.

(** How one turn of the run loop ends: back at [poll], or out of the host
    process through [err(1, ...)] or a failed assertion. *)
Inductive Turn :=
  | Continue (st : Service)
  | HostExit (st : Service).

(** The body of [while (poller.poll(fd, eof))]. *)
Definition run_iteration (st : Service) (ev : PollEvent) : Turn :=
  match ev with
  | Eof fd =>
      Continue {| pagemap := pagemap st;
                  ranges := delete fd (ranges st);
                  closed := closed st ++ [fd];
                  written := written st |}
  | Readable fd ShortRead => HostExit st
  | Readable fd (WholeRequest rpc) =>
      match ranges st !! fd with
      | None => Continue st
      | Some s =>
          match dispatch (pagemap st) s rpc with
          | Some (reply, pm', s') =>
              Continue {| pagemap := pm';
                          ranges := <[fd := s']> (ranges st);
                          closed := closed st;
                          written := written st ++ [(fd, reply)] |}
          | None => HostExit st
          end
      end
  end.

(** [run]: the loop over the events the poller delivers.  When [poll]
    fails the loop ends in [err(1, ...)]; the state at that point is
    returned. *)
Fixpoint run (st : Service) (evs : list PollEvent) : Service :=
  match evs with
  | [] => st
  | ev :: evs' =>
      match run_iteration st ev with
      | Continue st' => run st' evs'
      | HostExit st' => st'
      end
  end.

(** [add_range]. *)
Definition add_range (st : Service) (socket_fd : Z) (s : Sandbox) : Service :=
  {| pagemap := pagemap st;
     ranges := <[socket_fd := s]> (ranges st);
     closed := closed st;
     written := written st |}.

(** The size a metadata call asks for: one bucket for a plain set, two to
    the power [arg1] for the two range calls. *)
Definition requested_size (rpc : HostServiceRequest) : Z :=
  match kind rpc with
  | ChunkMapSet => SUPERSLAB_SIZE
  | _ => 2 ^ arg1 rpc
  end.


(** The update a metadata call asks for, on the canonical table. *)
Definition requested_update (pm : ChunkMap) (rpc : HostServiceRequest)
  : ChunkMap :=
  match kind rpc with
  | ChunkMapSet => chunkmap_set pm (arg0 rpc) (u8 (arg1 rpc))
  | ChunkMapSetRange => set_large_size pm (arg0 rpc) (2 ^ arg1 rpc)
  | ChunkMapClearRange => clear_large_size pm (arg0 rpc) (2 ^ arg1 rpc)
  | _ => pm
  end.

Definition well_formed (rpc : HostServiceRequest) : Prop :=
  is_word (arg0 rpc) /\ is_word (arg1 rpc).

End Service.

(** ** Allocation in the sandbox ([SandboxedLibrary::alloc_in_sandbox]) *)

(** [snmalloc::bits::umul(x, y, overflow)]: the product as a [size_t] and,
    in [overflow], whether the full product did not fit.  The function
    belongs to snmalloc and wraps [__builtin_mul_overflow]. *)
Definition umul (x y : Z) : Z * bool := (wrap (x * y), modulus <=? x * y).

Section Allocation.

(** The allocator of the sandbox, [SharedAlloc] of sandbox.hh, and its
    [alloc(size)]: the pointer it returns and the allocator afterwards.
    The entry point is verified for every allocator. *)
Variable SharedAlloc : Type.
Variable alloc : SharedAlloc -> Z -> Z * SharedAlloc.

(** [alloc_in_sandbox(bytes, count)]; [nullptr] is address [0]. *)
Definition alloc_in_sandbox (allocator : SharedAlloc) (bytes count : Z)
  : Z * SharedAlloc :=
  let '(sz, overflow) := umul bytes count in
  if overflow then (0, allocator) else alloc allocator sz.

End Allocation.

(** ** The call protocol ([SharedMemoryRegion], [SandboxedLibrary::send])

    The model follows the build without [USE_KQUEUE_PROCDESC], where the
    host watches the child with [waitpid]. *)
Module Call.

(** The child as the kernel sees it: alive, terminated and not yet waited
    for (with its wait status), or already reaped. *)
Inductive Child :=
  | Running
  | Terminated (status : Z)
  | Reaped.

(** The fields of [SharedMemoryRegion] and of [SandboxedLibrary] that a
    call touches, and the child process. *)
Record Sandbox := {
  function_index : Z;
  msg_buffer : Z;
  is_child_executing : bool;
  child_proc : Z;
  child_exited : bool;
  child_status : Z;
  child : Child
}.

(** What the child does while the host sits in one timed wait. *)
Inductive ChildStep :=
  | Works
  | Completes
  | Dies (status : Z).

Definition set_executing (w : Sandbox) (b : bool) : Sandbox :=
  {| function_index := function_index w; msg_buffer := msg_buffer w;
     is_child_executing := b; child_proc := child_proc w;
     child_exited := child_exited w; child_status := child_status w;
     child := child w |}.

Definition set_child (w : Sandbox) (c : Child) : Sandbox :=
  {| function_index := function_index w; msg_buffer := msg_buffer w;
     is_child_executing := is_child_executing w; child_proc := child_proc w;
     child_exited := child_exited w; child_status := child_status w;
     child := c |}.

(** [SharedMemoryRegion::signal(new_state)]. *)
Definition signal (w : Sandbox) (new_state : bool) : Sandbox :=
  set_executing w new_state.

(** Only a live child acts: it finishes the call with [signal(false)], or
    it terminates without signalling. *)
Definition child_step (w : Sandbox) (ev : ChildStep) : Sandbox :=
  match child w, ev with
  | Running, Completes => signal w false
  | Running, Dies status => set_child w (Terminated status)
  | _, _ => w
  end.

(** [SharedMemoryRegion::wait(expected, timeout)] once
    [pthread_cond_timedwait] has returned, for whichever reason:
    [bool ret = expected == is_child_executing]. *)
Definition wait (w : Sandbox) (expected : bool) : bool :=
  Bool.eqb expected (is_child_executing w).

(** [struct timespec]. *)
Record timespec := { tv_sec : Z; tv_nsec : Z }.

(** Reduction to a 64-bit [long] or [time_t]. *)
Definition long_wrap (x : Z) : Z := (x + 2 ^ 63) mod 2 ^ 64 - 2 ^ 63.

(** [__builtin_add_overflow(a, b, &res)] on [long]: the wrapped sum, and
    whether the sum did not fit. *)
Definition add_overflow (a b : Z) : Z * bool :=
  (long_wrap (a + b), negb (long_wrap (a + b) =? a + b)).

(** The deadline that the timed [wait] hands to [pthread_cond_timedwait]:
    [now] is the reading of [CLOCK_MONOTONIC]. *)
Definition deadline (now timeout : timespec) : timespec :=
  let '(nsec, carry) := add_overflow (tv_nsec now) (tv_nsec timeout) in
  {| tv_sec := long_wrap (tv_sec timeout
                          + long_wrap (tv_sec now + (if carry then 1 else 0)));
     tv_nsec := nsec |}.

(** [WEXITSTATUS(status)]. *)
Definition WEXITSTATUS (status : Z) : Z := Z.land (Z.shiftr status 8) 255.

(** The wrapper [waitpid(child_proc, WNOHANG)]: it repeats the system call
    while it is interrupted and returns the first result that is not.  A
    running child gives [0], a terminated one its pid and status (and is
    reaped by the call), and a child already reaped gives [-1]. *)
Definition waitpid_nohang (w : Sandbox) : Z * Z * Sandbox :=
  match child w with
  | Running => (0, 0, w)
  | Terminated status => (child_proc w, status, set_child w Reaped)
  | Reaped => (-1, 0, w)
  end.

(** How a host-side operation ends. *)
Inductive Outcome (A : Type) :=
  | Returns (a : A)
  | Throws (w : Sandbox)
  | HostExits
  | Waiting (w : Sandbox).
Arguments Returns {A} a.
Arguments Throws {A} w.
Arguments HostExits {A}.
Arguments Waiting {A} w.

(** [SandboxedLibrary::has_child_exited]. *)
Definition has_child_exited (w : Sandbox) : Outcome (bool * Sandbox) :=
  let '(ret, status, w1) := waitpid_nohang w in
  if ret =? -1 then HostExits
  else if ret =? child_proc w1 then
    Returns (true,
             {| function_index := function_index w1;
                msg_buffer := msg_buffer w1;
                is_child_executing := is_child_executing w1;
                child_proc := child_proc w1;
                child_exited := true;
                child_status := WEXITSTATUS status;
                child := child w1 |})
  else Returns (false, w1).

(** The loop of [send]: one element of the schedule for every timed wait.
    [Waiting] is a host still in the loop when the schedule ends. *)
Fixpoint send_loop (w : Sandbox) (schedule : list ChildStep)
  : Outcome Sandbox :=
  match schedule with
  | [] => Waiting w
  | ev :: rest =>
      let w1 := child_step w ev in
      if wait w1 false then Returns w1
      else match has_child_exited w1 with
           | Returns (true, w2) => Throws w2
           | Returns (false, w2) => send_loop w2 rest
           | Throws w2 => Throws w2
           | HostExits => HostExits
           | Waiting w2 => Waiting w2
           end
  end.

(** [SandboxedLibrary::send(idx, ptr)]. *)
Definition send (w : Sandbox) (idx ptr : Z) (schedule : list ChildStep)
  : Outcome Sandbox :=
  let w1 :=
    {| function_index := idx; msg_buffer := ptr;
       is_child_executing := is_child_executing w;
       child_proc := child_proc w; child_exited := child_exited w;
       child_status := child_status w; child := child w |} in
  send_loop (signal w1 true) schedule.

End Call.

(** ** The launcher ([SandboxedLibrary::start_child]) *)
Module Launcher.

(** [enum SandboxFileDescriptors]. *)
Definition SharedMemRegion : Z := 3.
Definition PageMapPage : Z := 4.
Definition FDSocket : Z := 5.
Definition MainLibrary : Z := 6.
Definition PageMapUpdates : Z := 7.
Definition OtherLibraries : Z := 8.

(** [libdirs]. *)
Definition libdirs : list string :=
  ["/lib"; "/usr/lib"; "/usr/local/lib"].

(** [last_fd = OtherLibraries + libdirs.size()]. *)
Definition last_fd : Z := OtherLibraries + Z.of_nat (length libdirs).

(** How the child side of the fork goes on: with a value, out of the
    process ([_exit], or a failed [assert]), or still inside a loop when
    the fuel of the model ends. *)
Inductive Launch (A : Type) :=
  | Ok (a : A)
  | Exit (code : Z)
  | Unfinished.
Arguments Ok {A} a.
Arguments Exit {A} code.
Arguments Unfinished {A}.

#[local] Instance launch_ret : MRet Launch := fun A a => Ok a.

#[local] Instance launch_bind : MBind Launch := fun A B k m =>
  match m with
  | Ok a => k a
  | Exit code => Exit code
  | Unfinished => Unfinished
  end.

(** [assert(c)]. *)
Definition assert (c : bool) : Launch unit := if c then Ok tt else Exit 134.

Section Descriptors.

(** An open file: what a descriptor refers to. *)
Variable File : Type.

(** The files the launcher opens by name: [None] when [open] fails. *)
Variable filesystem : string -> option File.

(** The descriptor table of the process, as the kernel keeps it: slot [n]
    holds what descriptor [n] refers to.  The table grows as needed: the
    model has no limit on the number of open descriptors, so [dup] of an
    open descriptor and [open] of an existing file do not fail. *)
Local Abbreviation FdTable := (list (option File)).

Definition slot (t : FdTable) (n : nat) : option File :=
  default None (t !! n).

Definition fd_lookup (t : FdTable) (fd : Z) : option File :=
  if fd <? 0 then None else slot t (Z.to_nat fd).

(** The lowest descriptor number that is not in use. *)
Fixpoint lowest_free (t : FdTable) : nat :=
  match t with
  | [] => O
  | None :: _ => O
  | Some _ :: t' => S (lowest_free t')
  end.

(** Make descriptor [n] refer to [f], whatever it referred to. *)
Fixpoint install (t : FdTable) (n : nat) (f : File) : FdTable :=
  match n, t with
  | O, [] => [Some f]
  | O, _ :: t' => Some f :: t'
  | S n', [] => None :: install [] n' f
  | S n', x :: t' => x :: install t' n' f
  end.

(** [dup(fd)]: the lowest free descriptor, or [-1] when [fd] is not open. *)
Definition dup (t : FdTable) (fd : Z) : Z * FdTable :=
  match fd_lookup t fd with
  | None => (-1, t)
  | Some f => (Z.of_nat (lowest_free t), install t (lowest_free t) f)
  end.

(** [dup2(oldfd, newfd)]. *)
Definition dup2 (t : FdTable) (oldfd newfd : Z) : Z * FdTable :=
  match fd_lookup t oldfd with
  | None => (-1, t)
  | Some f =>
      if newfd <? 0 then (-1, t)
      else (newfd, install t (Z.to_nat newfd) f)
  end.

(** [open(name, ...)]: the lowest free descriptor, or [-1]. *)
Definition open (t : FdTable) (name : string) : Z * FdTable :=
  match filesystem name with
  | None => (-1, t)
  | Some f => (Z.of_nat (lowest_free t), install t (lowest_free t) f)
  end.

(** [closefrom(lowfd)]. *)
Definition closefrom (t : FdTable) (lowfd : Z) : FdTable :=
  take (Z.to_nat lowfd) t.

(** The lambda [move_fd]: [assert(x >= 0); while (x < last_fd) x = dup(x);].
    [fuel] bounds the number of turns of the loop. *)
Fixpoint move_loop (fuel : nat) (t : FdTable) (x : Z) : Launch (Z * FdTable) :=
  if last_fd <=? x then Ok (x, t)
  else match fuel with
       | O => Unfinished
       | S fuel' => let '(x', t') := dup t x in move_loop fuel' t' x'
       end.

Definition move_fd (fuel : nat) (t : FdTable) (x : Z) : Launch (Z * FdTable) :=
  _ ← assert (0 <=? x); move_loop fuel t x.

(** [for (i...) libdirfds.at(i) = move_fd(open(libdirs.at(i), O_DIRECTORY));] *)
Fixpoint open_libdirs (fuel : nat) (t : FdTable) (dirs : list string)
  : Launch (list Z * FdTable) :=
  match dirs with
  | [] => Ok ([], t)
  | d :: dirs' =>
      let '(fd, t1) := open t d in
      '(fd', t2) ← move_fd fuel t1 fd;
      '(fds, t3) ← open_libdirs fuel t2 dirs';
      Ok (fd' :: fds, t3)
  end.

(** The descriptors once they are out of the way. *)
Record Moved := {
  shm_fd : Z;
  pagemap_mem : Z;
  fd_socket : Z;
  malloc_rpc_socket : Z;
  library : Z;
  libdirfds : list Z
}.

(** The first half of [start_child]: every descriptor the child is to
    receive is moved out of the region that is about to be populated. *)
Definition move_out (fuel : nat) (t : FdTable) (library_name : string)
    (shm pagemap malloc_rpc fdsock : Z) : Launch (Moved * FdTable) :=
  '(shm', t) ← move_fd fuel t shm;
  '(pagemap', t) ← move_fd fuel t pagemap;
  '(fdsock', t) ← move_fd fuel t fdsock;
  '(malloc_rpc', t) ← move_fd fuel t malloc_rpc;
  let '(lib, t) := open t library_name in
  if lib <? 0 then Exit (-1)
  else
    '(lib', t) ← move_fd fuel t lib;
    '(dirs, t) ← open_libdirs fuel t libdirs;
    Ok ({| shm_fd := shm'; pagemap_mem := pagemap'; fd_socket := fdsock';
           malloc_rpc_socket := malloc_rpc'; library := lib';
           libdirfds := dirs |}, t).

(** [for (auto& libfd : libdirfds) libfd = dup2(libfd, rtldfd++);] *)
Fixpoint place_libdirs (t : FdTable) (fds : list Z) (rtldfd : Z) : FdTable :=
  match fds with
  | [] => t
  | libfd :: fds' => place_libdirs (snd (dup2 t libfd rtldfd)) fds' (rtldfd + 1)
  end.

(** The second half: the descriptors are placed in their fixed slots, and
    everything from [last_fd] on is closed.  The result is the table the
    new program image starts with. *)
Definition place (t : FdTable) (m : Moved) : Launch FdTable :=
  let '(_, t) := dup2 t (shm_fd m) SharedMemRegion in
  let '(_, t) := dup2 t (pagemap_mem m) PageMapPage in
  let '(_, t) := dup2 t (fd_socket m) FDSocket in
  _ ← assert (negb (library m =? 0));
  let '(lib, t) := dup2 t (library m) MainLibrary in
  _ ← assert (lib =? MainLibrary);
  let '(_, t) := dup2 t (malloc_rpc_socket m) PageMapUpdates in
  let t := place_libdirs t (libdirfds m) OtherLibraries in
  Ok (closefrom t last_fd).

(** [start_child], up to [execve]. *)
Definition start_child (fuel : nat) (t : FdTable) (library_name : string)
    (pagemap_mem0 malloc_rpc_socket0 fd_socket0 shm0 : Z) : Launch FdTable :=
  '(m, t) ← move_out fuel t library_name shm0 pagemap_mem0
              malloc_rpc_socket0 fd_socket0;
  place t m.

(** The number of free descriptors below [k]. *)
Fixpoint free_slots (k : nat) (t : FdTable) : nat :=
  match k with
  | O => O
  | S k' =>
      match t with
      | [] => k
      | None :: t' => S (free_slots k' t')
      | Some _ :: t' => free_slots k' t'
      end
  end.

End Descriptors.

End Launcher.

(** ** An instance of the allocator interface

    Used to run the service on concrete requests. *)

(** Modelled from the spec: the pagemap as a flat table from bucket number
    (address divided by the granularity) to one byte of metadata, [0] for a
    bucket that holds nothing. *)
Definition FlatChunkMap := gmap Z Z.

Definition flat_get (pm : FlatChunkMap) (p : Z) : Z :=
  default 0 (pm !! (p / 2 ^ 24)).

Definition flat_set (pm : FlatChunkMap) (p x : Z) : FlatChunkMap :=
  <[p / 2 ^ 24 := x]> pm.

(** The head bucket of a large allocation carries the logarithm of its
    size, the buckets after it a marker. *)
Definition flat_set_large_size (pm : FlatChunkMap) (p sz : Z) : FlatChunkMap :=
  foldl (fun m i => <[p / 2 ^ 24 + i := 64]> m)
        (<[p / 2 ^ 24 := Z.log2_up sz]> pm)
        (seqZ 1 (sz / 2 ^ 24 - 1)).

Definition flat_clear_large_size (pm : FlatChunkMap) (p sz : Z) : FlatChunkMap :=
  foldl (fun m i => <[p / 2 ^ 24 + i := 0]> m) pm
        (seqZ 0 ((sz + 2 ^ 24 - 1) / 2 ^ 24)).

Lemma flat_granularity_pos : 0 < 2 ^ 24.
Proof. reflexivity. Qed.

(** Superslabs of 16 MiB, 24 large size classes, and a shared page of 4096
    one-byte entries. *)
Definition flat_snmalloc : Snmalloc := {|
  SUPERSLAB_SIZE := 2 ^ 24;
  NUM_LARGE_CLASSES := 24;
  large_sizeclass_to_size := fun c => 2 ^ (c + 24);
  ChunkMap := FlatChunkMap;
  chunkmap_get := flat_get;
  chunkmap_set := flat_set;
  set_large_size := flat_set_large_size;
  clear_large_size := flat_clear_large_size;
  index_for_address := fun p => (p / 2 ^ 24) mod 4096;
  SUPERSLAB_SIZE_pos := flat_granularity_pos
|}.

(** A provider whose pop of an empty pool returns the null pointer. *)
Definition null_when_empty : EmptyPool := {| empty_pop := fun _ _ => 0 |}.

(** A provider that has nothing left to reserve. *)
Definition reserve_nothing (p : SharedMemoryProvider) (c : Z)
  : Z * SharedMemoryProvider := (0, p).

(** A sandbox with the 1 GiB range that starts at 4 GiB, one free block of
    class [0] in its pool and an empty shared page, and a service that has
    it registered on descriptor [7]. *)
Definition example_provider : SharedMemoryProvider :=
  {| base := 2 ^ 32; size := 2 ^ 30;
     large_stack := {[ 0 := [2 ^ 32 + 2 ^ 24] ]} |}.

Definition example_sandbox : Sandbox :=
  {| memory_provider := example_provider; shared_page := ∅ |}.

Definition example_service : @Service flat_snmalloc :=
  @Build_Service flat_snmalloc (∅ : FlatChunkMap)
    {[ 7 := example_sandbox ]} [] [].

(** A service with no sandbox registered. *)
Definition idle_service : @Service flat_snmalloc :=
  @Build_Service flat_snmalloc (∅ : FlatChunkMap) ∅ [] [].

(** An allocator that hands out consecutive addresses. *)
Definition bump_alloc (next sz : Z) : Z * Z := (next, next + sz).

(** A sandbox at rest: no call in flight, the child alive. *)
Definition example_call : Call.Sandbox :=
  {| Call.function_index := 0; Call.msg_buffer := 0;
     Call.is_child_executing := false; Call.child_proc := 4242;
     Call.child_exited := false; Call.child_status := 0;
     Call.child := Call.Running |}.

(** A file system in which every name can be opened; a file is known by
    its name. *)
Definition every_file (name : string) : option string := Some name.

(** The descriptor table of the child side of the fork. *)
Definition forked_table : list (option string) :=
  [Some "stdin"; Some "stdout"; Some "stderr"; Some "shm"; Some "pagemap";
   Some "rpc-host"; Some "rpc-child"; Some "fd-host"; Some "fd-child"].

(** ** The rest of the host side *)

(** The service as a turn of the run loop leaves it, whether the loop goes
    on or the host exits. *)
Definition turn_state `{Snmalloc} (t : Turn) : Service :=
  match t with
  | Continue st => st
  | HostExit st => st
  end.

(** *** [SharedPagemapAdaptor]

    The adaptor through which the allocator of the host updates the pagemap
    for memory of the shared region. *)
Module Adaptor.
Section Adaptor.
Context `{Snmalloc}.

(** [global_pagemap.set_slab(slab)] and [global_pagemap.clear_slab(slab)] of
    snmalloc, for a superslab and for a medium slab. *)
Variable set_superslab : ChunkMap -> Z -> ChunkMap.
Variable clear_superslab : ChunkMap -> Z -> ChunkMap.
Variable set_mediumslab : ChunkMap -> Z -> ChunkMap.
Variable clear_mediumslab : ChunkMap -> Z -> ChunkMap.

(** [struct SharedPagemapAdaptor]: its view of the global pagemap, and the
    page of the child. *)
Record SharedPagemapAdaptor := {
  global_pagemap : ChunkMap;
  shared_page : gmap Z Z
}.

(** [update_child(p, entries)]. *)
Definition update_child (a : SharedPagemapAdaptor) (p entries : Z)
  : SharedPagemapAdaptor :=
  {| global_pagemap := global_pagemap a;
     shared_page :=
       foldl (fun page i =>
                <[wrap (index_for_address p + i) :=
                    chunkmap_get (global_pagemap a)
                      (wrap (p + wrap (i * SUPERSLAB_SIZE)))]> page)
             (shared_page a) (seqZ 0 entries) |}.


Definition with_global (a : SharedPagemapAdaptor) (pm : ChunkMap)
  : SharedPagemapAdaptor :=
  {| global_pagemap := pm; shared_page := shared_page a |}.

(** [set_slab] and [clear_slab] for a superslab, then [clear_slab] and
    [set_slab] for a medium slab: the default of [entries] is [1]. *)
Definition set_slab (a : SharedPagemapAdaptor) (slab : Z) :=
  update_child (with_global a (set_superslab (global_pagemap a) slab)) slab 1.

Definition clear_slab (a : SharedPagemapAdaptor) (slab : Z) :=
  update_child (with_global a (clear_superslab (global_pagemap a) slab)) slab 1.

Definition clear_medium_slab (a : SharedPagemapAdaptor) (slab : Z) :=
  update_child (with_global a (clear_mediumslab (global_pagemap a) slab)) slab 1.

Definition set_medium_slab (a : SharedPagemapAdaptor) (slab : Z) :=
  update_child (with_global a (set_mediumslab (global_pagemap a) slab)) slab 1.

(** [set_large_size(p, size)]. *)
Definition set_large_size (a : SharedPagemapAdaptor) (p sz : Z) :=
  let a' := with_global a (set_large_size (global_pagemap a) p sz) in
  update_child a' p (sz / SUPERSLAB_SIZE).

(** [clear_large_size(p, size)]. *)
Definition clear_large_size (a : SharedPagemapAdaptor) (p sz : Z) :=
  let a' := with_global a (clear_large_size (global_pagemap a) p sz) in
  update_child a' p (sz / SUPERSLAB_SIZE).

End Adaptor.
End Adaptor.

(** *** [SandboxedLibrary::wait_for_child_exit]

    As for the call protocol, the build without [USE_KQUEUE_PROCDESC]. *)
Module Lifecycle.

(** [WIFEXITED(status)] and [WIFSIGNALED(status)]: the low seven bits of a
    wait status are zero for an exit, the number of the signal for a child
    killed by one, and [0x7f] for a stopped child. *)
Definition WIFEXITED (status : Z) : bool := Z.land status 127 =? 0.

Definition WIFSIGNALED (status : Z) : bool :=
  negb (Z.land status 127 =? 0) && negb (Z.land status 127 =? 127).

(** The wrapper [waitpid(child_proc, 0)]: the call blocks until the child
    has terminated.  [fate] is the wait status with which a child that is
    still running goes on to terminate, [None] for a child that never
    does. *)
Definition waitpid_blocking (w : Call.Sandbox) (fate : option Z)
  : Call.Outcome (Z * Z * Call.Sandbox) :=
  match Call.child w with
  | Call.Running =>
      match fate with
      | Some status =>
          Call.Returns (Call.child_proc w, status, Call.set_child w Call.Reaped)
      | None => Call.Waiting w
      end
  | Call.Terminated status =>
      Call.Returns (Call.child_proc w, status, Call.set_child w Call.Reaped)
  | Call.Reaped => Call.Returns (-1, 0, w)
  end.

(** [wait_for_child_exit]: the value it returns, the flag [should_exit] of
    the shared region, and the sandbox afterwards. *)
Definition wait_for_child_exit (w : Call.Sandbox) (should_exit : bool)
    (fate : option Z) : Call.Outcome (Z * bool * Call.Sandbox) :=
  if Call.child_exited w then Call.Returns (Call.child_status w, should_exit, w)
  else
    let w1 := Call.signal w true in
    match waitpid_blocking w1 fate with
    | Call.Returns (ret, status, w2) =>
        if ret =? -1 then Call.HostExits
        else if (ret =? Call.child_proc w2)
                && (WIFEXITED status || WIFSIGNALED status)
        then Call.Returns
               (1, true,
                {| Call.function_index := Call.function_index w2;
                   Call.msg_buffer := Call.msg_buffer w2;
                   Call.is_child_executing := Call.is_child_executing w2;
                   Call.child_proc := Call.child_proc w2;
                   Call.child_exited := true;
                   Call.child_status := Call.WEXITSTATUS status;
                   Call.child := Call.child w2 |})
        else Call.Returns (0, true, w2)
    | Call.Throws w2 => Call.Throws w2
    | Call.HostExits => Call.HostExits
    | Call.Waiting w2 => Call.Waiting w2
    end.

End Lifecycle.

(** *** The location string of [start_child] *)
Module Location.

(** One digit of [%zx]. *)
Definition hex_digit (d : Z) : ascii :=
  nth (Z.to_nat d)
    ["0"; "1"; "2"; "3"; "4"; "5"; "6"; "7"; "8"; "9";
     "a"; "b"; "c"; "d"; "e"; "f"]%char "0"%char.

(** The digits of [n], the most significant first, in front of [acc]. *)
Fixpoint hex_loop (fuel : nat) (n : Z) (acc : string) : string :=
  match fuel with
  | O => acc
  | S fuel' =>
      let acc' := String (hex_digit (n mod 16)) acc in
      if n / 16 =? 0 then acc' else hex_loop fuel' (n / 16) acc'
  end.

(** [%zx]: lower-case hexadecimal with no leading zeros, ["0"] for zero.  A
    number has no more hexadecimal digits than binary ones. *)
Definition to_hex (n : Z) : string :=
  hex_loop (S (Z.to_nat (Z.log2 n))) n "".

(** What [snprintf(location, sizeof(location), "SANDBOX_LOCATION=%zx:%zx",
    sharedmem_addr, shm.get_size())] formats. *)
Definition location (sharedmem_addr shm_size : Z) : string :=
  "SANDBOX_LOCATION=" +:+ to_hex sharedmem_addr +:+ ":" +:+ to_hex shm_size.

(** [sizeof(location)] for [char location[52]]. *)
Definition location_size : Z := 52.

(** The value of [snprintf]: the length of the formatted string, whether
    or not it fits. *)
Definition loc_len (sharedmem_addr shm_size : Z) : Z :=
  Z.of_nat (String.length (location sharedmem_addr shm_size)).

(** Reading a hexadecimal string back, as [strtoull(s, ..., 16)] does for
    the digits [%zx] produces. *)
Definition digit_value (c : ascii) : Z :=
  let n := Z.of_nat (nat_of_ascii c) in
  if n <? 58 then n - 48 else n - 87.

Fixpoint from_hex (s : string) (acc : Z) : Z :=
  match s with
  | EmptyString => acc
  | String c s' => from_hex s' (16 * acc + digit_value c)
  end.

End Location.

(** Whether a string is free of the separator of the location string. *)
Fixpoint no_colon (s : string) : bool :=
  match s with
  | EmptyString => true
  | String c s' => negb (Ascii.eqb c ":") && no_colon s'
  end.

(** *** Further concrete inputs *)

(** A pop of size class [0] and a range call of two superslabs at the start
    of the range of [example_sandbox]. *)
Definition example_pop : HostServiceRequest :=
  {| kind := MemoryProviderPopLargeStack; arg0 := 0; arg1 := 0 |}.

Definition example_set_range : HostServiceRequest :=
  {| kind := ChunkMapSetRange; arg0 := 2 ^ 32; arg1 := 25 |}.

(** A plain set one gigabyte past the end of the range. *)
Definition example_stray_set : HostServiceRequest :=
  {| kind := ChunkMapSet; arg0 := 2 ^ 33; arg1 := 5 |}.

(** An adaptor over an empty table and an empty page. *)
Definition example_adaptor : @Adaptor.SharedPagemapAdaptor flat_snmalloc :=
  @Adaptor.Build_SharedPagemapAdaptor flat_snmalloc (∅ : FlatChunkMap) ∅.

(** The forked table of a host that has closed its standard input. *)
Definition forked_table_without_stdin : list (option string) :=
  [None; Some "stdout"; Some "stderr"; Some "shm"; Some "pagemap";
   Some "rpc-host"; Some "rpc-child"; Some "fd-host"; Some "fd-child"].

(** A file system in which [missing] cannot be opened. *)
Definition every_file_but (missing name : string) : option string :=
  if String.eqb name missing then None else Some name.

(** * Properties *)

(** ** Machine integers *)

Lemma wrap_small x : 0 <= x < modulus -> wrap x = x.
Proof. intros Hx. unfold wrap. now apply Z.mod_small. Qed.

Lemma shl1_small n : 0 <= n < 64 -> shl1 n = 2 ^ n.
Proof.
  intros Hn. unfold shl1, modulus.
  rewrite (Z.mod_small n 64) by lia.
  rewrite Z.shiftl_1_l.
  apply Z.mod_small. split; [apply Z.pow_nonneg; lia|].
  apply Z.pow_lt_mono_r; lia.
Qed.

Lemma shl1_range n : 0 <= shl1 n < modulus.
Proof. unfold shl1, modulus. apply Z.mod_pos_bound. lia. Qed.


(** ** The pagemap service *)
Section ServiceProperties.
Context `{Snmalloc} `{EmptyPool}.
Variable reserve : SharedMemoryProvider -> Z -> Z * SharedMemoryProvider.


Lemma copy_entries_nonpos pm address index n page :
  n <= 0 -> copy_entries pm address index n page = page.
Proof. intros Hn. unfold copy_entries. now rewrite seqZ_nil by lia. Qed.



Lemma contains_spec p ptr sz :
  contains p ptr sz = true <-> base p <= ptr /\ ptr + sz <= base p + size p.
Proof. unfold contains. rewrite andb_true_iff, !Z.leb_le. reflexivity. Qed.

(** A span of [2 ^ n] bytes inside a range has [n < 64]: the shift of
    [check_large_update] is then the power the child asked for. *)
Lemma contained_power_small p ptr n :
  provider_wf p -> 0 <= ptr -> 0 <= n ->
  contains p ptr (2 ^ n) = true -> n < 64.
Proof.
  intros (Hb & Hs & Htop) Hptr Hn Hc. apply contains_spec in Hc.
  apply (Z.pow_lt_mono_r_iff 2); [lia | lia |].
  unfold modulus in Htop. lia.
Qed.




(** [validate_and_insert] is only reached with one of the three metadata
    kinds, so the switch of [run] never meets its [assert(0)]. *)
Lemma dispatch_total pm s rpc :
  exists reply pm' s', dispatch reserve pm s rpc = Some (reply, pm', s').
Proof.
  unfold dispatch, validate_and_insert, check_large_update, propagate.
  destruct (kind rpc); simpl;
    repeat match goal with
           | |- context [if ?b then _ else _] => destruct b
           | |- context [let '(_, _) := ?e in _] => destruct e
           end; eauto.
Qed.

(** A metadata call that fails its range check changes neither the table
    nor the sandbox. *)
Lemma unsafe_update_is_dropped pm s rpc pm' s' :
  validate_and_insert pm s rpc = Some (false, pm', s') -> pm' = pm /\ s' = s.
Proof.
  unfold validate_and_insert, check_large_update, propagate.
  destruct (kind rpc); try discriminate;
    match goal with
    | |- context [contains ?p ?a ?z] => destruct (contains p a z)
    end; intros Heq; inversion Heq; auto.
Qed.

Lemma metadata_reply pm s rpc reply pm' s' :
  is_metadata_call (kind rpc) = true ->
  dispatch reserve pm s rpc = Some (reply, pm', s') ->
  exists safe,
    validate_and_insert pm s rpc = Some (safe, pm', s')
    /\ reply = {| error := if safe then 0 else 1; result := 0 |}.
Proof.
  intros Hk. unfold dispatch.
  destruct (kind rpc); try discriminate Hk;
    (destruct (validate_and_insert pm s rpc) as [[[safe pm1] s1]|];
     [|discriminate]);
    intros Heq; inversion Heq; subst; eauto.
Qed.

(** C9. A request on a channel with no registered range leaves the service
    as it was, and a metadata call that is answered with the error flag set
    leaves the canonical table and every registered sandbox, its shared page
    included, as they were. *)
Theorem rejected_request_leaves_shared_page st fd rpc st' :
  run_iteration reserve st (Readable fd (WholeRequest rpc)) = Continue st' ->
  ranges st !! fd = None
  \/ (is_metadata_call (kind rpc) = true
      /\ exists reply, written st' = written st ++ [(fd, reply)]
                       /\ error reply <> 0) ->
  pagemap st' = pagemap st /\ ranges st' = ranges st.
Proof.
  unfold run_iteration. intros Hrun Hcase.
  destruct (ranges st !! fd) as [s|] eqn:Hfd.
  - destruct Hcase as [Hnone | (Hk & reply & Hw & Herr)]; [discriminate|].
    destruct (dispatch reserve (pagemap st) s rpc) as [[[r pm1] s1]|] eqn:Hd;
      [|discriminate].
    inversion Hrun; subst st'; clear Hrun. simpl in *.
    apply app_inj_tail in Hw as [_ Hr]. inversion Hr; subst r.
    destruct (metadata_reply _ _ _ _ _ _ Hk Hd) as (safe & Hv & Hreply).
    subst reply. destruct safe; [now contradict Herr|].
    apply unsafe_update_is_dropped in Hv as [-> ->].
    split; [reflexivity|]. now apply insert_id.
  - inversion Hrun. auto.
Qed.

(** Once the peer has closed a channel its registration is gone: a request
    that later arrives under the same descriptor number is dropped. *)
Lemma closed_channel_is_forgotten st fd rpc :
  run reserve st [Eof fd; Readable fd (WholeRequest rpc)]
  = {| pagemap := pagemap st; ranges := delete fd (ranges st);
       closed := closed st ++ [fd]; written := written st |}.
Proof.
  unfold run, run_iteration. cbn [ranges]. now rewrite lookup_delete_eq.
Qed.

(** C4, as the run loop has it.  A whole request on a registered channel
    is answered with exactly one response on that channel, whatever its
    kind and whether or not it is accepted; a whole request on a channel
    with no registered range is dropped and nothing is written. *)
Theorem request_acknowledged_on_registered_channel st fd rpc :
  exists st',
    run_iteration reserve st (Readable fd (WholeRequest rpc)) = Continue st'
    /\ closed st' = closed st
    /\ match ranges st !! fd with
       | Some _ => exists reply, written st' = written st ++ [(fd, reply)]
       | None => st' = st
       end.
Proof.
  unfold run_iteration. destruct (ranges st !! fd) as [s|].
  - destruct (dispatch_total (pagemap st) s rpc) as (reply & pm' & s' & ->).
    eexists. split; [reflexivity|]. simpl. eauto.
  - eauto.
Qed.

(** C3, as the switch has it.  The size class of a large-block call is
    [arg1] cut to eight bits.  A call whose class is not below
    [NUM_LARGE_CLASSES] is answered with [error = 1] and the provider is
    untouched.  A push whose block does not lie inside the Memory Range is
    answered likewise; a push that is answered with [error = 0] has pushed a
    block that lies inside the range.  Pop and reserve take no address:
    [arg0] is not read, and with a class in range they are answered with
    [error = 0]. *)
Theorem large_block_request_checked pm s rpc :
  is_large_block_call (kind rpc) = true ->
  exists reply s',
    dispatch reserve pm s rpc = Some (reply, pm, s')
    /\ (NUM_LARGE_CLASSES <= u8 (arg1 rpc) -> reply = rejected /\ s' = s)
    /\ (kind rpc = MemoryProviderPushLargeStack ->
        (contains (memory_provider s) (arg0 rpc)
           (large_sizeclass_to_size (u8 (arg1 rpc))) = false ->
         reply = rejected /\ s' = s)
        /\ (error reply = 0 ->
            u8 (arg1 rpc) < NUM_LARGE_CLASSES
            /\ base (memory_provider s) <= arg0 rpc
            /\ arg0 rpc + large_sizeclass_to_size (u8 (arg1 rpc))
               <= base (memory_provider s) + size (memory_provider s)
            /\ s' = with_provider s
                      (push_large_stack (memory_provider s) (arg0 rpc)
                         (u8 (arg1 rpc)))))
    /\ (kind rpc <> MemoryProviderPushLargeStack ->
        u8 (arg1 rpc) < NUM_LARGE_CLASSES ->
        error reply = 0
        /\ forall a, dispatch reserve pm s
                       {| kind := kind rpc; arg0 := a; arg1 := arg1 rpc |}
                     = dispatch reserve pm s rpc).
Proof.
  intros Hk. unfold dispatch, is_large_sizeclass, rejected.
  destruct (kind rpc) eqn:Ek; try discriminate Hk; simpl; rewrite ?Ek.
  - destruct (u8 (arg1 rpc) <? NUM_LARGE_CLASSES) eqn:Hc; simpl.
    + apply Z.ltb_lt in Hc.
      destruct (contains (memory_provider s) (arg0 rpc)
                  (large_sizeclass_to_size (u8 (arg1 rpc)))) eqn:Hin; simpl.
      * eexists _, _. split; [reflexivity|].
        split; [lia|]. split; [|congruence].
        intros _. split; [discriminate|]. intros _.
        apply contains_spec in Hin. tauto.
      * eexists _, _. split; [reflexivity|].
        split; [auto|]. split; [|congruence].
        intros _. split; [auto|]. simpl. discriminate.
    + eexists _, _. split; [reflexivity|].
      split; [auto|]. split; [|congruence].
      intros _. split; [auto|]. simpl. discriminate.
  - destruct (u8 (arg1 rpc) <? NUM_LARGE_CLASSES) eqn:Hc; simpl.
    + apply Z.ltb_lt in Hc.
      destruct (pop_large_stack (memory_provider s) (u8 (arg1 rpc)))
        as [block p'].
      eexists _, _. split; [reflexivity|].
      split; [lia|]. split; [discriminate|]. auto.
    + apply Z.ltb_ge in Hc. eexists _, _. split; [reflexivity|].
      split; [auto|]. split; [discriminate|]. intros _ Hlt. lia.
  - destruct (u8 (arg1 rpc) <? NUM_LARGE_CLASSES) eqn:Hc; simpl.
    + apply Z.ltb_lt in Hc.
      destruct (reserve (memory_provider s) (u8 (arg1 rpc))) as [block p'].
      eexists _, _. split; [reflexivity|].
      split; [lia|]. split; [discriminate|]. auto.
    + apply Z.ltb_ge in Hc. eexists _, _. split; [reflexivity|].
      split; [auto|]. split; [discriminate|]. intros _ Hlt. lia.
Qed.

(** What [run] fixes of a pop.  A pop whose size class is in range is
    answered with [error = 0] whatever the pool holds, and with the address
    that [pop_large_stack] returns; the provider is left as
    [pop_large_stack] leaves it and the shared page is not touched.  On a
    pool without a block the address is [empty_pop], which sandbox.hh
    decides: the switch adds no test of its own. *)
Lemma pop_reply_is_pop_result pm s rpc :
  kind rpc = MemoryProviderPopLargeStack ->
  u8 (arg1 rpc) < NUM_LARGE_CLASSES ->
  exists reply s',
    dispatch reserve pm s rpc = Some (reply, pm, s')
    /\ error reply = 0
    /\ (result reply, memory_provider s')
       = pop_large_stack (memory_provider s) (u8 (arg1 rpc))
    /\ shared_page s' = shared_page s
    /\ (pool (memory_provider s) (u8 (arg1 rpc)) = [] ->
        result reply = empty_pop (memory_provider s) (u8 (arg1 rpc))
        /\ s' = s).
Proof.
  intros Hk Hc. unfold dispatch, is_large_sizeclass. rewrite Hk.
  apply Z.ltb_lt in Hc. rewrite Hc. simpl.
  unfold pop_large_stack.
  destruct (pool (memory_provider s) (u8 (arg1 rpc))) as [|slab rest]; simpl.
  - eexists _, _. split; [reflexivity|]. simpl.
    repeat split. destruct s; reflexivity.
  - eexists _, _. split; [reflexivity|]. simpl.
    repeat split; discriminate.
Qed.

End ServiceProperties.

(** ** The service on concrete requests *)

(** The three conjuncts of a range and word check are closed arithmetic. *)
Ltac closed_arith :=
  repeat match goal with
         | |- _ /\ _ => split
         end;
  vm_compute; first [reflexivity | discriminate].

Lemma example_provider_wf : provider_wf example_provider.
Proof. unfold provider_wf. closed_arith. Defined.

(** C1. A range call with [arg1 = 88] asks for [2 ^ 88] bytes, which no
    range contains.  The shift [1ULL << 88] yields [2 ^ 24], the range check
    is made with that size and passes: the service answers [error = 0] and
    the canonical table has a new entry. *)
Theorem oversized_range_request_is_accepted :
  let rpc := {| kind := ChunkMapSetRange; arg0 := 2 ^ 32; arg1 := 88 |} in
  well_formed rpc
  /\ contains example_provider (arg0 rpc)
       (@requested_size flat_snmalloc rpc) = false
  /\ exists st',
       @run_iteration flat_snmalloc null_when_empty
           reserve_nothing example_service
         (Readable 7 (WholeRequest rpc)) = Continue st'
       /\ written st' = [(7, {| error := 0; result := 0 |})]
       /\ flat_get (pagemap example_service) (2 ^ 32) = 0
       /\ flat_get (pagemap st') (2 ^ 32) = 24.
Proof.
  intros rpc. split; [unfold well_formed, is_word; closed_arith|].
  split; [closed_arith|].
  eexists. split; [reflexivity|].
  repeat split.
Qed.

(** For a shift count the language defines, the range check is made with
    the size the child asked for, and a span outside the range is rejected
    with the table and the sandbox untouched. *)
Lemma uncontained_metadata_request_rejected `{Snmalloc} `{EmptyPool}
    reserve pm s rpc :
  is_metadata_call (kind rpc) = true ->
  kind rpc = ChunkMapSet \/ 0 <= arg1 rpc < 64 ->
  contains (memory_provider s) (arg0 rpc) (requested_size rpc) = false ->
  dispatch reserve pm s rpc = Some (rejected, pm, s).
Proof.
  intros Hk Hn Hc.
  unfold dispatch, validate_and_insert, check_large_update, propagate,
    requested_size, rejected in *.
  destruct (kind rpc) eqn:Ek; try discriminate Hk.
  - now rewrite Hc.
  - destruct Hn as [Hn|Hn]; [discriminate|].
    rewrite shl1_small by exact Hn. now rewrite Hc.
  - destruct Hn as [Hn|Hn]; [discriminate|].
    rewrite shl1_small by exact Hn. now rewrite Hc.
Qed.


Lemma rejected_request_leaves_shared_page_witness :
  let rpc := {| kind := ChunkMapSet; arg0 := 2 ^ 33; arg1 := 5 |} in
  let st' := @Build_Service flat_snmalloc (∅ : FlatChunkMap)
               {[ 7 := example_sandbox ]} [] [(7, rejected)] in
  pagemap st' = pagemap example_service
  /\ ranges st' = ranges example_service.
Proof.
  intros rpc st'.
  apply (@rejected_request_leaves_shared_page flat_snmalloc null_when_empty
      reserve_nothing
           example_service 7 rpc st').
  - reflexivity.
  - right. split; [reflexivity|].
    exists rejected. split; [reflexivity|]. simpl. discriminate.
Defined.

(** C4, as stated, fails: a whole request read from a channel that has no
    registered range is dropped, and nothing is written in answer. *)
Lemma unregistered_request_gets_no_response :
  let rpc := {| kind := ChunkMapSet; arg0 := 2 ^ 32; arg1 := 5 |} in
  @run_iteration flat_snmalloc null_when_empty
      reserve_nothing idle_service (Readable 7 (WholeRequest rpc))
  = Continue idle_service
  /\ written idle_service = [].
Proof. split; reflexivity. Qed.

(** C3, as stated, fails: a pop carries no address to validate, so with
    [arg0 = 0], far outside the range, it is answered with [error = 0] and
    takes a block off the pool; and a size class of [256], out of range, is
    cut to eight bits and served as class [0]. *)
Lemma pop_is_served_whatever_the_address :
  let popped := {| base := 2 ^ 32; size := 2 ^ 30;
                   large_stack := {[ 0 := [] ]} |} in
  contains example_provider 0
    (@large_sizeclass_to_size flat_snmalloc 0) = false
  /\ @dispatch flat_snmalloc null_when_empty
      reserve_nothing (∅ : FlatChunkMap) example_sandbox
       {| kind := MemoryProviderPopLargeStack; arg0 := 0; arg1 := 0 |}
     = Some ({| error := 0; result := 2 ^ 32 + 2 ^ 24 |}, ∅,
             with_provider example_sandbox popped)
  /\ (@NUM_LARGE_CLASSES flat_snmalloc <= 256)
  /\ @dispatch flat_snmalloc null_when_empty
      reserve_nothing (∅ : FlatChunkMap) example_sandbox
       {| kind := MemoryProviderPopLargeStack; arg0 := 0; arg1 := 256 |}
     = Some ({| error := 0; result := 2 ^ 32 + 2 ^ 24 |}, ∅,
             with_provider example_sandbox popped).
Proof.
  intros popped. split; [reflexivity|]. split; [reflexivity|].
  split; [closed_arith|]. reflexivity.
Qed.

Lemma large_block_request_checked_witness :
  let rpc := {| kind := MemoryProviderPushLargeStack;
                arg0 := 2 ^ 32; arg1 := 1 |} in
  let pm : FlatChunkMap := ∅ in
  let s := example_sandbox in
  exists reply s',
    @dispatch flat_snmalloc null_when_empty
        reserve_nothing pm s rpc = Some (reply, pm, s')
    /\ (@NUM_LARGE_CLASSES flat_snmalloc <= u8 (arg1 rpc) ->
        reply = rejected /\ s' = s)
    /\ (kind rpc = MemoryProviderPushLargeStack ->
        (contains (memory_provider s) (arg0 rpc)
           (@large_sizeclass_to_size flat_snmalloc (u8 (arg1 rpc))) = false ->
         reply = rejected /\ s' = s)
        /\ (error reply = 0 ->
            u8 (arg1 rpc) < @NUM_LARGE_CLASSES flat_snmalloc
            /\ base (memory_provider s) <= arg0 rpc
            /\ arg0 rpc
               + @large_sizeclass_to_size flat_snmalloc (u8 (arg1 rpc))
               <= base (memory_provider s) + size (memory_provider s)
            /\ s' = with_provider s
                      (push_large_stack (memory_provider s) (arg0 rpc)
                         (u8 (arg1 rpc)))))
    /\ (kind rpc <> MemoryProviderPushLargeStack ->
        u8 (arg1 rpc) < @NUM_LARGE_CLASSES flat_snmalloc ->
        error reply = 0
        /\ forall a, @dispatch flat_snmalloc null_when_empty
            reserve_nothing pm s
                       {| kind := kind rpc; arg0 := a; arg1 := arg1 rpc |}
                     = @dispatch flat_snmalloc null_when_empty
                         reserve_nothing pm s rpc).
Proof.
  intros rpc pm s.
  apply (@large_block_request_checked flat_snmalloc null_when_empty
      reserve_nothing pm s rpc).
  reflexivity.
Defined.

(** ** Allocation in the sandbox *)

(** C5. When the product of the two sizes does not fit in a [size_t],
    [alloc_in_sandbox] returns the null pointer and leaves the allocator
    alone; when it fits, the call is the call of the allocator with the
    exact product. *)
Theorem alloc_in_sandbox_overflow_checked {SharedAlloc : Type}
    (alloc : SharedAlloc -> Z -> Z * SharedAlloc) allocator bytes count :
  is_word bytes -> is_word count ->
  (modulus <= bytes * count ->
   alloc_in_sandbox SharedAlloc alloc allocator bytes count = (0, allocator))
  /\ (bytes * count < modulus ->
      alloc_in_sandbox SharedAlloc alloc allocator bytes count
      = alloc allocator (bytes * count)).
Proof.
  intros [Hb _] [Hc _]. unfold alloc_in_sandbox, umul. split; intros Hp.
  - apply Z.leb_le in Hp. now rewrite Hp.
  - assert (Hle : (modulus <=? bytes * count) = false) by (apply Z.leb_gt; lia).
    rewrite Hle. rewrite wrap_small by nia. reflexivity.
Qed.

Lemma alloc_in_sandbox_overflow_checked_witness :
  alloc_in_sandbox Z bump_alloc 4096 (2 ^ 63) 2 = (0, 4096)
  /\ alloc_in_sandbox Z bump_alloc 4096 (2 ^ 32 - 1) (2 ^ 32)
     = bump_alloc 4096 ((2 ^ 32 - 1) * 2 ^ 32).
Proof.
  split.
  - apply (alloc_in_sandbox_overflow_checked bump_alloc 4096 (2 ^ 63) 2);
      unfold is_word; closed_arith.
  - apply (alloc_in_sandbox_overflow_checked bump_alloc 4096
             (2 ^ 32 - 1) (2 ^ 32)); unfold is_word; closed_arith.
Defined.

(** ** The call protocol *)

(** The timed wait reports the one test of the flag it makes after
    [pthread_cond_timedwait] has returned. *)
Lemma wait_reports_flag_test w expected :
  Call.wait w expected = true <-> Call.is_child_executing w = expected.
Proof.
  unfold Call.wait. rewrite Bool.eqb_true_iff. split; congruence.
Qed.

(** The deadline is the reading of the monotonic clock plus the timeout,
    field by field: the carry of the addition is the overflow of a [long],
    so the nanoseconds of the deadline are the plain sum of the two. *)
Lemma deadline_adds_fields now timeout :
  0 <= Call.tv_nsec now < 10 ^ 9 -> 0 <= Call.tv_nsec timeout < 10 ^ 9 ->
  0 <= Call.tv_sec now < 2 ^ 62 -> 0 <= Call.tv_sec timeout < 2 ^ 62 ->
  Call.deadline now timeout
  = {| Call.tv_sec := Call.tv_sec timeout + Call.tv_sec now;
       Call.tv_nsec := Call.tv_nsec now + Call.tv_nsec timeout |}.
Proof.
  intros Hn1 Hn2 Hs1 Hs2.
  assert (Hw : forall x, - 2 ^ 63 <= x < 2 ^ 63 -> Call.long_wrap x = x).
  { intros x Hx. unfold Call.long_wrap. rewrite Z.mod_small by lia. lia. }
  unfold Call.deadline, Call.add_overflow.
  rewrite (Hw (Call.tv_nsec now + Call.tv_nsec timeout)) by lia.
  rewrite Z.eqb_refl. simpl negb. cbv iota.
  rewrite Z.add_0_r. rewrite (Hw (Call.tv_sec now)) by lia.
  rewrite Hw by lia. reflexivity.
Qed.

(** While the child works and does not signal, a turn of the loop changes
    nothing. *)
Lemma send_loop_child_works w rest :
  0 < Call.child_proc w ->
  Call.is_child_executing w = true ->
  Call.child w = Call.Running ->
  Call.send_loop w (Call.Works :: rest) = Call.send_loop w rest.
Proof.
  intros Hpid Hflag Hchild. destruct w as [fi mb ex pid exd st ch].
  simpl in *. subst ex ch.
  unfold Call.child_step, Call.wait, Call.has_child_exited,
    Call.waitpid_nohang.
  destruct pid as [|pid|pid]; try lia. reflexivity.
Qed.

(** A child that terminates during a turn is found by the liveness check
    of that turn. *)
Lemma send_loop_child_dies w status rest :
  0 < Call.child_proc w ->
  Call.is_child_executing w = true ->
  Call.child w = Call.Running ->
  Call.send_loop w (Call.Dies status :: rest)
  = Call.Throws
      {| Call.function_index := Call.function_index w;
         Call.msg_buffer := Call.msg_buffer w;
         Call.is_child_executing := true;
         Call.child_proc := Call.child_proc w;
         Call.child_exited := true;
         Call.child_status := Call.WEXITSTATUS status;
         Call.child := Call.Reaped |}.
Proof.
  intros Hpid Hflag Hchild. destruct w as [fi mb ex pid exd st ch].
  simpl in *. subst ex ch.
  unfold Call.child_step, Call.wait, Call.has_child_exited,
    Call.waitpid_nohang.
  destruct pid as [|pid|pid]; try lia. simpl.
  now rewrite Pos.eqb_refl.
Qed.

(** However long the child works before it dies, the loop ends in the
    turn of its death. *)
Lemma send_loop_reports_death w n status rest :
  0 < Call.child_proc w ->
  Call.is_child_executing w = true ->
  Call.child w = Call.Running ->
  Call.send_loop w (repeat Call.Works n ++ Call.Dies status :: rest)
  = Call.Throws
      {| Call.function_index := Call.function_index w;
         Call.msg_buffer := Call.msg_buffer w;
         Call.is_child_executing := true;
         Call.child_proc := Call.child_proc w;
         Call.child_exited := true;
         Call.child_status := Call.WEXITSTATUS status;
         Call.child := Call.Reaped |}.
Proof.
  intros Hpid Hflag Hchild. induction n as [|n IH].
  - now apply send_loop_child_dies.
  - change (repeat Call.Works (S n) ++ Call.Dies status :: rest)
      with (Call.Works :: (repeat Call.Works n ++ Call.Dies status :: rest)).
    rewrite send_loop_child_works by assumption. exact IH.
Qed.

(** C6. A call is outstanding and the child, after any number of timed
    waits during which it works, terminates with some wait status without
    having signalled completion.  The wait of that turn times out, the
    liveness check finds the child gone, and [send] ends by throwing the
    runtime error, with the exit recorded; it neither returns nor stays in
    the loop. *)
Theorem send_reports_dead_child w idx ptr n status rest :
  0 < Call.child_proc w ->
  Call.child w = Call.Running ->
  exists w',
    Call.send w idx ptr (repeat Call.Works n ++ Call.Dies status :: rest)
    = Call.Throws w'
    /\ Call.child_exited w' = true
    /\ Call.child_status w' = Call.WEXITSTATUS status
    /\ Call.child w' = Call.Reaped
    /\ Call.function_index w' = idx /\ Call.msg_buffer w' = ptr.
Proof.
  intros Hpid Hchild. unfold Call.send.
  rewrite send_loop_reports_death; [| exact Hpid | reflexivity | exact Hchild].
  eexists. split; [reflexivity|]. simpl. auto.
Qed.

Lemma send_reports_dead_child_witness :
  exists w',
    Call.send example_call 3 (2 ^ 32)
      (repeat Call.Works 2 ++ Call.Dies 139 :: [Call.Works])
    = Call.Throws w'
    /\ Call.child_exited w' = true
    /\ Call.child_status w' = Call.WEXITSTATUS 139
    /\ Call.child w' = Call.Reaped
    /\ Call.function_index w' = 3 /\ Call.msg_buffer w' = 2 ^ 32.
Proof.
  apply (send_reports_dead_child example_call 3 (2 ^ 32) 2 139 [Call.Works]).
  - reflexivity.
  - reflexivity.
Defined.

(** ** The launcher *)
Section LauncherProperties.
Import Launcher.
Context {File : Type}.
Variable filesystem : string -> option File.

Local Abbreviation FdTable := (list (option File)).

Lemma last_fd_value : last_fd = 11.
Proof. reflexivity. Qed.

Lemma slot_install (t : FdTable) n f m :
  slot File (install File t n f) m
  = if decide (m = n) then Some f else slot File t m.
Proof.
  unfold slot. revert t m.
  induction n as [|n IH]; intros [|x t] [|m]; simpl; rewrite ?IH; simpl;
    repeat case_decide; try lia; reflexivity.
Qed.

Lemma fd_lookup_install (t : FdTable) n f fd :
  fd_lookup File (install File t n f) fd
  = if decide (fd = Z.of_nat n) then Some f else fd_lookup File t fd.
Proof.
  unfold fd_lookup. destruct (fd <? 0) eqn:Hneg.
  - apply Z.ltb_lt in Hneg. case_decide; [lia | reflexivity].
  - apply Z.ltb_ge in Hneg. rewrite slot_install.
    repeat case_decide; try lia; reflexivity.
Qed.

Lemma fd_lookup_nonneg (t : FdTable) fd f :
  fd_lookup File t fd = Some f -> 0 <= fd.
Proof.
  unfold fd_lookup. destruct (fd <? 0) eqn:Hneg; [discriminate|].
  apply Z.ltb_ge in Hneg. auto.
Qed.

Lemma lowest_free_is_free (t : FdTable) :
  fd_lookup File t (Z.of_nat (lowest_free File t)) = None.
Proof.
  unfold fd_lookup.
  destruct (Z.of_nat (lowest_free File t) <? 0) eqn:Hneg; [reflexivity|].
  rewrite Nat2Z.id. clear Hneg. unfold slot.
  induction t as [|[g|] t IH]; simpl; [reflexivity | exact IH | reflexivity].
Qed.

Lemma free_slots_le k (t : FdTable) : (free_slots File k t <= k)%nat.
Proof.
  revert t. induction k as [|k IH]; intros [|[g|] t]; simpl; try lia.
  - specialize (IH t). lia.
  - specialize (IH t). lia.
Qed.

(** Taking the lowest free descriptor below [k] leaves one free descriptor
    fewer below [k]. *)
Lemma free_slots_install_lowest k (t : FdTable) f :
  (lowest_free File t < k)%nat ->
  (free_slots File k (install File t (lowest_free File t) f)
   < free_slots File k t)%nat.
Proof.
  revert k. induction t as [|[g|] t IH]; intros [|k] Hlt; simpl in *;
    try lia.
  - destruct k; simpl; lia.
  - apply IH. lia.
Qed.

Lemma move_loop_done fuel (t : FdTable) x :
  last_fd <= x -> move_loop File fuel t x = Ok (x, t).
Proof.
  intros Hx. apply Z.leb_le in Hx. destruct fuel; simpl; now rewrite Hx.
Qed.

(** [move_fd] comes to an end: after at most one [dup] for every free
    descriptor below [last_fd], and one more, the descriptor it holds is at
    or above [last_fd].  It refers to the same file, and no descriptor that
    was open has changed. *)
Lemma move_fd_moves fuel (t : FdTable) x f :
  fd_lookup File t x = Some f ->
  (free_slots File 11 t < fuel)%nat ->
  exists x' t',
    move_fd File fuel t x = Ok (x', t')
    /\ last_fd <= x'
    /\ fd_lookup File t' x' = Some f
    /\ (forall fd g, fd_lookup File t fd = Some g ->
                     fd_lookup File t' fd = Some g).
Proof.
  intros Hx Hfuel. unfold move_fd.
  pose proof (fd_lookup_nonneg _ _ _ Hx) as Hnn.
  apply Z.leb_le in Hnn. rewrite Hnn. simpl. clear Hnn.
  revert t x Hx Hfuel. induction fuel as [|fuel IH]; intros t x Hx Hfuel;
    [lia|].
  simpl. destruct (last_fd <=? x) eqn:Hdone.
  - apply Z.leb_le in Hdone. eauto 10.
  - apply Z.leb_gt in Hdone. unfold dup. rewrite Hx.
    set (n := lowest_free File t). set (t1 := install File t n f).
    assert (Hn : fd_lookup File t1 (Z.of_nat n) = Some f).
    { unfold t1. rewrite fd_lookup_install. now rewrite decide_True. }
    assert (Hext : forall fd g, fd_lookup File t fd = Some g ->
                                fd_lookup File t1 fd = Some g).
    { intros fd g Hfd. unfold t1. rewrite fd_lookup_install.
      case_decide as Heq; [|exact Hfd]. subst fd.
      unfold n in Hfd. rewrite lowest_free_is_free in Hfd. discriminate. }
    destruct (Z_lt_le_dec (Z.of_nat n) last_fd) as [Hlow|Hhigh].
    + destruct (IH t1 (Z.of_nat n) Hn) as (x' & t' & Hrun & Hge & Hf & Hext').
      { rewrite last_fd_value in Hlow.
        assert (Hdec := free_slots_install_lowest 11 t f).
        fold n in Hdec. fold t1 in Hdec. lia. }
      exists x', t'. repeat split; auto.
    + rewrite move_loop_done by exact Hhigh. eauto 10.
Qed.

Lemma open_opens (t : FdTable) name f :
  filesystem name = Some f ->
  exists fd t',
    open File filesystem t name = (fd, t')
    /\ fd_lookup File t' fd = Some f
    /\ (forall fd' g, fd_lookup File t fd' = Some g ->
                      fd_lookup File t' fd' = Some g).
Proof.
  intros Hf. unfold open. rewrite Hf. eexists _, _. split; [reflexivity|].
  split.
  - rewrite fd_lookup_install. now rewrite decide_True.
  - intros fd' g Hfd. rewrite fd_lookup_install.
    case_decide as Heq; [|exact Hfd]. subst fd'.
    rewrite lowest_free_is_free in Hfd. discriminate.
Qed.

(** The directories are opened and moved one after the other; each ends at
    or above [last_fd]. *)
Lemma open_libdirs_moves fuel dirs : forall (t : FdTable) files,
  (12 <= fuel)%nat ->
  Forall2 (fun d f => filesystem d = Some f) dirs files ->
  exists fds t',
    open_libdirs File filesystem fuel t dirs = Ok (fds, t')
    /\ Forall2 (fun fd f => last_fd <= fd /\ fd_lookup File t' fd = Some f)
         fds files
    /\ (forall fd g, fd_lookup File t fd = Some g ->
                     fd_lookup File t' fd = Some g).
Proof.
  induction dirs as [|d dirs IH]; intros t files Hfuel Hfiles.
  - inversion Hfiles; subst. exists [], t. simpl. auto.
  - inversion Hfiles as [|? f ? files' Hd Hrest]; subst. simpl.
    destruct (open_opens t d f Hd) as (fd & t1 & -> & Hfd & Hext1).
    destruct (move_fd_moves fuel t1 fd f Hfd)
      as (fd' & t2 & -> & Hge & Hfd' & Hext2).
    { pose proof (free_slots_le 11 t1). lia. }
    simpl.
    destruct (IH t2 files' Hfuel Hrest) as (fds & t3 & -> & Hall & Hext3).
    simpl. exists (fd' :: fds), t3. split; [reflexivity|]. split.
    + constructor; [split; auto | exact Hall].
    + auto.
Qed.

Lemma dup2_places (t : FdTable) oldfd newfd f :
  fd_lookup File t oldfd = Some f -> 0 <= newfd ->
  dup2 File t oldfd newfd = (newfd, install File t (Z.to_nat newfd) f).
Proof.
  intros Hold Hnew. unfold dup2. rewrite Hold.
  apply Z.ltb_ge in Hnew. now rewrite Hnew.
Qed.

Lemma fd_lookup_placed (t : FdTable) newfd f fd :
  0 <= newfd ->
  fd_lookup File (install File t (Z.to_nat newfd) f) fd
  = if decide (fd = newfd) then Some f else fd_lookup File t fd.
Proof.
  intros Hnew. rewrite fd_lookup_install. rewrite Z2Nat.id by exact Hnew.
  reflexivity.
Qed.

Lemma fd_lookup_closefrom (t : FdTable) lowfd fd :
  0 <= lowfd ->
  fd_lookup File (closefrom File t lowfd) fd
  = if decide (fd < lowfd) then fd_lookup File t fd else None.
Proof.
  intros Hlow. unfold fd_lookup, closefrom, slot.
  destruct (fd <? 0) eqn:Hneg; [now case_decide|].
  apply Z.ltb_ge in Hneg. case_decide.
  - rewrite lookup_take_lt by lia. reflexivity.
  - rewrite lookup_take_ge by lia. reflexivity.
Qed.

(** The loop that places the directory descriptors: slot [rtldfd + i]
    receives the file of the [i]-th descriptor, and nothing outside the
    slots it fills is touched.  The sources are at or above [last_fd], the
    slots below it. *)
Lemma place_libdirs_places fds : forall files (t : FdTable) rtldfd,
  0 <= rtldfd ->
  rtldfd + Z.of_nat (length fds) <= last_fd ->
  Forall2 (fun fd f => last_fd <= fd /\ fd_lookup File t fd = Some f)
    fds files ->
  (forall i f, files !! i = Some f ->
     fd_lookup File (place_libdirs File t fds rtldfd) (rtldfd + Z.of_nat i)
     = Some f)
  /\ (forall fd, fd < rtldfd \/ rtldfd + Z.of_nat (length fds) <= fd ->
        fd_lookup File (place_libdirs File t fds rtldfd) fd
        = fd_lookup File t fd).
Proof.
  induction fds as [|libfd fds IH]; intros files t rtldfd Hnn Hfit Hall.
  - inversion Hall; subst. simpl. split; [|auto].
    intros i f Hi. now rewrite lookup_nil in Hi.
  - inversion Hall as [|? f0 ? files' [Hge Hsrc] Hrest]; subst.
    simpl in *. rewrite (dup2_places t libfd rtldfd f0 Hsrc Hnn). simpl.
    set (t1 := install File t (Z.to_nat rtldfd) f0).
    assert (Hrest1 : Forall2
              (fun fd f => last_fd <= fd /\ fd_lookup File t1 fd = Some f)
              fds files').
    { eapply Forall2_impl; [exact Hrest|]. intros fd f [Hfd Hlook].
      split; [exact Hfd|]. unfold t1. rewrite fd_lookup_placed by exact Hnn.
      case_decide; [lia | exact Hlook]. }
    destruct (IH files' t1 (rtldfd + 1)) as [Hin Hout]; [lia | lia | exact Hrest1 |].
    split.
    + intros [|i] f Hi; simpl in Hi.
      * inversion Hi; subst f. rewrite Z.add_0_r.
        rewrite Hout by lia. unfold t1.
        rewrite fd_lookup_placed by exact Hnn. now rewrite decide_True.
      * replace (rtldfd + Z.of_nat (S i)) with (rtldfd + 1 + Z.of_nat i) by lia.
        now apply Hin.
    + intros fd Hfd. rewrite Hout by lia. unfold t1.
      rewrite fd_lookup_placed by exact Hnn. case_decide; [lia | reflexivity].
Qed.

(** C8. Started with enough fuel for the loops of [move_fd], from a table
    in which the four descriptors handed to it are open and with a library
    and library directories that can be opened, [start_child] reaches
    [execve].  At the end of its first half every descriptor destined for
    the child is at or above [last_fd], one past the last fixed slot, and
    refers to its file; at [execve] the slots from [SharedMemRegion] on hold
    the shared heap, the pagemap page, the descriptor-passing socket, the
    main library, the socket for pagemap updates and the three library
    directories, in this order; descriptors below the first slot that were
    open are as they were, and nothing is open from [last_fd] on. *)
Theorem start_child_fixed_layout fuel (t : FdTable) library_name
    pagemap0 rpc0 sock0 shm0 f_shm f_pagemap f_rpc f_sock f_lib
    d_lib d_usr d_local :
  (12 <= fuel)%nat ->
  fd_lookup File t shm0 = Some f_shm ->
  fd_lookup File t pagemap0 = Some f_pagemap ->
  fd_lookup File t rpc0 = Some f_rpc ->
  fd_lookup File t sock0 = Some f_sock ->
  filesystem library_name = Some f_lib ->
  Forall2 (fun d f => filesystem d = Some f) libdirs [d_lib; d_usr; d_local] ->
  exists m t1 t2,
    move_out File filesystem fuel t library_name shm0 pagemap0 rpc0 sock0
    = Ok (m, t1)
    /\ Forall2 (fun fd f => last_fd <= fd /\ fd_lookup File t1 fd = Some f)
         (shm_fd m :: pagemap_mem m :: fd_socket m :: library m
          :: malloc_rpc_socket m :: libdirfds m)
         [f_shm; f_pagemap; f_sock; f_lib; f_rpc; d_lib; d_usr; d_local]
    /\ start_child File filesystem fuel t library_name pagemap0 rpc0 sock0 shm0
       = Ok t2
    /\ fd_lookup File t2 <$>
         [SharedMemRegion; PageMapPage; FDSocket; MainLibrary; PageMapUpdates;
          OtherLibraries; OtherLibraries + 1; OtherLibraries + 2]
       = [Some f_shm; Some f_pagemap; Some f_sock; Some f_lib; Some f_rpc;
          Some d_lib; Some d_usr; Some d_local]
    /\ (forall fd g, fd < SharedMemRegion -> fd_lookup File t fd = Some g ->
                     fd_lookup File t2 fd = Some g)
    /\ (forall fd, last_fd <= fd -> fd_lookup File t2 fd = None).
Proof.
  intros Hfuel Hshm Hpm Hrpc Hsock Hlib Hdirs.
  assert (Hf : forall t' : FdTable, (free_slots File 11 t' < fuel)%nat).
  { intros t'. pose proof (free_slots_le 11 t'). lia. }
  (* the first half *)
  destruct (move_fd_moves fuel t shm0 f_shm Hshm (Hf _))
    as (shm1 & ta & Ha & Gshm & Lshm & Ea).
  destruct (move_fd_moves fuel ta pagemap0 f_pagemap (Ea _ _ Hpm) (Hf _))
    as (pm1 & tb & Hb & Gpm & Lpm & Eb).
  destruct (move_fd_moves fuel tb sock0 f_sock (Eb _ _ (Ea _ _ Hsock)) (Hf _))
    as (sock1 & tc & Hc & Gsock & Lsock & Ec).
  destruct (move_fd_moves fuel tc rpc0 f_rpc
              (Ec _ _ (Eb _ _ (Ea _ _ Hrpc))) (Hf _))
    as (rpc1 & td & Hd & Grpc & Lrpc & Ed).
  destruct (open_opens td library_name f_lib Hlib)
    as (lib0 & te & He & Llib0 & Ee).
  destruct (move_fd_moves fuel te lib0 f_lib Llib0 (Hf _))
    as (lib1 & tf & Hmf & Glib & Llib & Ef).
  destruct (open_libdirs_moves fuel libdirs tf
              [d_lib; d_usr; d_local] Hfuel Hdirs)
    as (dirs1 & tg & Hg & Ldirs & Eg).
  set (m := {| shm_fd := shm1; pagemap_mem := pm1; fd_socket := sock1;
               malloc_rpc_socket := rpc1; library := lib1;
               libdirfds := dirs1 |}).
  assert (Hmove : move_out File filesystem fuel t library_name
                    shm0 pagemap0 rpc0 sock0 = Ok (m, tg)).
  { unfold move_out, mbind, launch_bind.
    rewrite Ha; cbv beta iota. rewrite Hb; cbv beta iota.
    rewrite Hc; cbv beta iota. rewrite Hd; cbv beta iota. rewrite He.
    pose proof (fd_lookup_nonneg _ _ _ Llib0) as Hnn.
    apply Z.ltb_ge in Hnn. rewrite Hnn. rewrite Hmf; cbv beta iota.
    rewrite Hg. reflexivity. }
  assert (Lshm' : fd_lookup File tg shm1 = Some f_shm) by eauto 10.
  assert (Lpm' : fd_lookup File tg pm1 = Some f_pagemap) by eauto 10.
  assert (Lsock' : fd_lookup File tg sock1 = Some f_sock) by eauto 10.
  assert (Lrpc' : fd_lookup File tg rpc1 = Some f_rpc) by eauto 10.
  assert (Llib' : fd_lookup File tg lib1 = Some f_lib) by eauto 10.
  (* the second half *)
  rewrite last_fd_value in Gshm, Gpm, Gsock, Grpc, Glib.
  pose (t3 := install File tg (Z.to_nat 3) f_shm).
  pose (t4 := install File t3 (Z.to_nat 4) f_pagemap).
  pose (t5 := install File t4 (Z.to_nat 5) f_sock).
  pose (t6 := install File t5 (Z.to_nat 6) f_lib).
  pose (t7 := install File t6 (Z.to_nat 7) f_rpc).
  assert (L3 : forall fd, fd_lookup File t3 fd
            = if decide (fd = 3) then Some f_shm else fd_lookup File tg fd)
    by (intros fd; apply fd_lookup_placed; lia).
  assert (L4 : forall fd, fd_lookup File t4 fd
            = if decide (fd = 4) then Some f_pagemap else fd_lookup File t3 fd)
    by (intros fd; apply fd_lookup_placed; lia).
  assert (L5 : forall fd, fd_lookup File t5 fd
            = if decide (fd = 5) then Some f_sock else fd_lookup File t4 fd)
    by (intros fd; apply fd_lookup_placed; lia).
  assert (L6 : forall fd, fd_lookup File t6 fd
            = if decide (fd = 6) then Some f_lib else fd_lookup File t5 fd)
    by (intros fd; apply fd_lookup_placed; lia).
  assert (L7 : forall fd, fd_lookup File t7 fd
            = if decide (fd = 7) then Some f_rpc else fd_lookup File t6 fd)
    by (intros fd; apply fd_lookup_placed; lia).
  assert (Hpast : forall fd, 8 <= fd ->
            fd_lookup File t7 fd = fd_lookup File tg fd).
  { intros fd Hfd. rewrite L7, L6, L5, L4, L3.
    repeat (case_decide; [lia|]). reflexivity. }
  assert (S4 : fd_lookup File t3 pm1 = Some f_pagemap).
  { rewrite L3. case_decide; [lia | exact Lpm']. }
  assert (S5 : fd_lookup File t4 sock1 = Some f_sock).
  { rewrite L4, L3. repeat (case_decide; [lia|]). exact Lsock'. }
  assert (S6 : fd_lookup File t5 lib1 = Some f_lib).
  { rewrite L5, L4, L3. repeat (case_decide; [lia|]). exact Llib'. }
  assert (S7 : fd_lookup File t6 rpc1 = Some f_rpc).
  { rewrite L6, L5, L4, L3. repeat (case_decide; [lia|]). exact Lrpc'. }
  assert (Hdirs7 : Forall2
            (fun fd f => last_fd <= fd /\ fd_lookup File t7 fd = Some f)
            dirs1 [d_lib; d_usr; d_local]).
  { eapply Forall2_impl; [exact Ldirs|]. intros fd f [Hge Hl].
    split; [exact Hge|]. rewrite last_fd_value in Hge.
    rewrite Hpast by lia. exact Hl. }
  assert (Hlen : length dirs1 = 3%nat).
  { apply Forall2_length in Ldirs. exact Ldirs. }
  assert (Hfit : 8 + Z.of_nat (length dirs1) <= last_fd).
  { rewrite Hlen, last_fd_value. lia. }
  destruct (place_libdirs_places dirs1 [d_lib; d_usr; d_local] t7 8
              ltac:(lia) Hfit Hdirs7) as [Hin Hout].
  pose (t8 := place_libdirs File t7 dirs1 8).
  assert (Hplace : place File tg m = Ok (closefrom File t8 last_fd)).
  { unfold place, mbind, launch_bind, assert.
    unfold SharedMemRegion, PageMapPage, FDSocket, MainLibrary,
      PageMapUpdates, OtherLibraries.
    cbn [shm_fd pagemap_mem fd_socket malloc_rpc_socket library libdirfds m].
    rewrite (dup2_places tg shm1 3 f_shm Lshm' ltac:(lia)).
    cbv beta iota. fold t3.
    rewrite (dup2_places t3 pm1 4 f_pagemap S4 ltac:(lia)).
    cbv beta iota. fold t4.
    rewrite (dup2_places t4 sock1 5 f_sock S5 ltac:(lia)).
    cbv beta iota. fold t5.
    assert (Hnz : (lib1 =? 0) = false) by (apply Z.eqb_neq; lia).
    rewrite Hnz. cbn [negb].
    rewrite (dup2_places t5 lib1 6 f_lib S6 ltac:(lia)).
    cbv beta iota. fold t6. rewrite Z.eqb_refl.
    rewrite (dup2_places t6 rpc1 7 f_rpc S7 ltac:(lia)).
    reflexivity. }
  assert (Hend : forall fd, fd_lookup File (closefrom File t8 last_fd) fd
            = if decide (fd < 11) then fd_lookup File t8 fd else None).
  { intros fd. rewrite fd_lookup_closefrom by (rewrite last_fd_value; lia).
    now rewrite last_fd_value. }
  assert (Hbelow : forall fd, fd < 8 ->
            fd_lookup File (closefrom File t8 last_fd) fd
            = fd_lookup File t7 fd).
  { intros fd Hfd. rewrite Hend, decide_True by lia.
    apply Hout. left. exact Hfd. }
  assert (Hslot : forall i f, [d_lib; d_usr; d_local] !! i = Some f ->
            fd_lookup File (closefrom File t8 last_fd) (8 + Z.of_nat i)
            = Some f).
  { intros i f Hi. pose proof (lookup_lt_Some _ _ _ Hi) as Hlt.
    simpl in Hlt. rewrite Hend, decide_True by lia. now apply Hin. }
  exists m, tg, (closefrom File t8 last_fd).
  split; [exact Hmove|]. split.
  { rewrite last_fd_value. cbn [shm_fd pagemap_mem fd_socket
      malloc_rpc_socket library libdirfds m].
    repeat (constructor; [now split|]).
    eapply Forall2_impl; [exact Ldirs|]. intros fd f [Hge Hl].
    rewrite last_fd_value in Hge. now split. }
  split.
  { unfold start_child, mbind, launch_bind. rewrite Hmove. exact Hplace. }
  split.
  { unfold SharedMemRegion, PageMapPage, FDSocket, MainLibrary,
      PageMapUpdates, OtherLibraries. cbn [fmap list_fmap].
    rewrite !Hbelow by lia.
    pose proof (Hslot 0%nat d_lib eq_refl) as H0.
    pose proof (Hslot 1%nat d_usr eq_refl) as H1.
    pose proof (Hslot 2%nat d_local eq_refl) as H2.
    change (8 + Z.of_nat 0) with 8 in H0.
    change (Z.of_nat 1) with 1 in H1. change (Z.of_nat 2) with 2 in H2.
    rewrite H0, H1, H2.
    rewrite !L7, !L6, !L5, !L4, !L3.
    repeat (case_decide; try lia). reflexivity. }
  split.
  - intros fd g Hfd Hopen. unfold SharedMemRegion in Hfd.
    rewrite Hbelow by lia. rewrite L7, L6, L5, L4, L3.
    repeat (case_decide; [lia|]). eauto 12.
  - intros fd Hfd. rewrite last_fd_value in Hfd.
    rewrite Hend. now rewrite decide_False by lia.
Qed.

End LauncherProperties.

(** ** The launcher on a concrete table *)

(** The child side of the fork as the constructor of [SandboxedLibrary]
    leaves it: the three standard descriptors, the shared heap on 3, the
    pagemap page on 4, the two ends of the socket for pagemap updates on 5
    and 6 and the two ends of the descriptor-passing socket on 7 and 8.  The
    descriptors to hand over sit in the very slots that are to be
    populated. *)
Lemma start_child_on_forked_table :
  Launcher.start_child string every_file 12 forked_table "/opt/libfoo.so"
    4 6 8 3
  = Launcher.Ok
      [Some "stdin"; Some "stdout"; Some "stderr"; Some "shm"; Some "pagemap";
       Some "fd-child"; Some "/opt/libfoo.so"; Some "rpc-child";
       Some "/lib"; Some "/usr/lib"; Some "/usr/local/lib"].
Proof. reflexivity. Qed.

Lemma start_child_fixed_layout_witness :
  exists m t1 t2,
    Launcher.move_out string every_file 12 forked_table "/opt/libfoo.so"
      3 4 6 8 = Launcher.Ok (m, t1)
    /\ Forall2
         (fun fd f => Launcher.last_fd <= fd
                      /\ Launcher.fd_lookup string t1 fd = Some f)
         (Launcher.shm_fd m :: Launcher.pagemap_mem m :: Launcher.fd_socket m
          :: Launcher.library m :: Launcher.malloc_rpc_socket m
          :: Launcher.libdirfds m)
         ["shm"; "pagemap"; "fd-child"; "/opt/libfoo.so"; "rpc-child";
          "/lib"; "/usr/lib"; "/usr/local/lib"]
    /\ Launcher.start_child string every_file 12 forked_table "/opt/libfoo.so"
         4 6 8 3 = Launcher.Ok t2
    /\ Launcher.fd_lookup string t2 <$>
         [Launcher.SharedMemRegion; Launcher.PageMapPage; Launcher.FDSocket;
          Launcher.MainLibrary; Launcher.PageMapUpdates;
          Launcher.OtherLibraries; Launcher.OtherLibraries + 1;
          Launcher.OtherLibraries + 2]
       = [Some "shm"; Some "pagemap"; Some "fd-child"; Some "/opt/libfoo.so";
          Some "rpc-child"; Some "/lib"; Some "/usr/lib";
          Some "/usr/local/lib"]
    /\ (forall fd g, fd < Launcher.SharedMemRegion ->
          Launcher.fd_lookup string forked_table fd = Some g ->
          Launcher.fd_lookup string t2 fd = Some g)
    /\ (forall fd, Launcher.last_fd <= fd ->
          Launcher.fd_lookup string t2 fd = None).
Proof.
  apply (start_child_fixed_layout every_file 12 forked_table "/opt/libfoo.so"
           4 6 8 3 "shm" "pagemap" "rpc-child" "fd-child" "/opt/libfoo.so"
           "/lib" "/usr/lib" "/usr/local/lib").
  - lia.
  - reflexivity.
  - reflexivity.
  - reflexivity.
  - reflexivity.
  - reflexivity.
  - repeat constructor.
Defined.

(** * Further properties *)

(** ** The pagemap service: what a request can and cannot change *)
Section ServiceInvariants.
Context `{Snmalloc} `{EmptyPool}.
Variable reserve : SharedMemoryProvider -> Z -> Z * SharedMemoryProvider.

(** X1. No reply of the switch carries an error flag other than [0] and [1]; a
    reply with the flag set comes with a null result and with the table and
    the sandbox exactly as they were, whatever the kind of the call; and
    only pop and reserve ever return a result. *)
Theorem rejection_changes_nothing pm s rpc reply pm' s' :
  dispatch reserve pm s rpc = Some (reply, pm', s') ->
  (error reply = 0 \/ error reply = 1)
  /\ (error reply = 1 -> result reply = 0 /\ pm' = pm /\ s' = s)
  /\ (result reply <> 0 ->
      kind rpc = MemoryProviderPopLargeStack
      \/ kind rpc = MemoryProviderReserve).
Proof.
  unfold dispatch, rejected.
  destruct (kind rpc) eqn:Ek;
    try (destruct (negb _ || negb _));
    try (destruct (negb (is_large_sizeclass (u8 (arg1 rpc)))));
    try (destruct (pop_large_stack _ _) as [block p]);
    try (destruct (reserve _ _) as [block p]);
    try (destruct (validate_and_insert pm s rpc) as [[[safe pm1] s1]|] eqn:Hv;
         [destruct safe|]);
    intros Heq; inversion Heq; subst; simpl;
    try (apply unsafe_update_is_dropped in Hv as [-> ->]);
    repeat split; auto; try discriminate; try congruence; try tauto.
Qed.

(** X2. A large-block call, a call of unknown kind, a closed channel and a
    short read all leave the canonical table as it is: only a metadata call
    reaches it. *)
Theorem table_changes_only_by_metadata_calls st ev :
  match ev with
  | Readable _ (WholeRequest rpc) => is_metadata_call (kind rpc) = false
  | _ => True
  end ->
  pagemap (turn_state (run_iteration reserve st ev)) = pagemap st.
Proof.
  destruct ev as [fd | fd [| rpc]]; simpl; auto.
  intros Hk. destruct (ranges st !! fd) as [s|]; [|reflexivity].
  unfold dispatch.
  destruct (kind rpc); try discriminate Hk;
    repeat match goal with
           | |- context [if ?b then _ else _] => destruct b
           | |- context [let '(_, _) := ?e in _] => destruct e
           end; reflexivity.
Qed.

(** X3. A request read on one channel leaves the set of registered channels as
    it is and every other registration, provider and shared page included,
    untouched. *)
Theorem request_leaves_other_channels st fd r :
  let st' := turn_state (run_iteration reserve st (Readable fd r)) in
  dom (ranges st') = dom (ranges st)
  /\ forall fd', fd' <> fd -> ranges st' !! fd' = ranges st !! fd'.
Proof.
  destruct r as [|rpc]; simpl; [auto|].
  destruct (ranges st !! fd) as [s|] eqn:Hfd; [|auto].
  destruct (dispatch reserve (pagemap st) s rpc) as [[[reply pm'] s']|];
    [|auto].
  simpl. split.
  - apply dom_insert_lookup_L. rewrite Hfd. eauto.
  - intros fd' Hne. now apply lookup_insert_ne.
Qed.

(** The switch never moves the bounds of the Memory Range, provided
    [reserve] does not. *)
Lemma dispatch_keeps_range_bounds pm s rpc reply pm' s' :
  (forall p c, base (snd (reserve p c)) = base p
               /\ size (snd (reserve p c)) = size p) ->
  dispatch reserve pm s rpc = Some (reply, pm', s') ->
  base (memory_provider s') = base (memory_provider s)
  /\ size (memory_provider s') = size (memory_provider s).
Proof.
  intros Hres. unfold dispatch, validate_and_insert, check_large_update,
    propagate, pop_large_stack.
  destruct (kind rpc);
    repeat match goal with
           | |- context [if ?b then _ else _] => destruct b
           | |- context [reserve ?p ?c] =>
               let Hb := fresh in
               pose proof (Hres p c) as Hb; destruct (reserve p c); simpl in Hb
           | |- context [match pool ?p ?c with _ => _ end] =>
               destruct (pool p c)
           end;
    intros Heq; inversion Heq; subst; simpl; auto; discriminate.
Qed.

(** X4. Whatever the children send and in whatever order, a sandbox that is
    registered at the end was registered at the start with the same bounds:
    the service registers nothing, and no request moves the range against
    which the next one is validated. *)
Theorem run_keeps_range_bounds evs : forall st fd s',
  (forall p c, base (snd (reserve p c)) = base p
               /\ size (snd (reserve p c)) = size p) ->
  ranges (run reserve st evs) !! fd = Some s' ->
  exists s,
    ranges st !! fd = Some s
    /\ base (memory_provider s') = base (memory_provider s)
    /\ size (memory_provider s') = size (memory_provider s).
Proof.
  induction evs as [|ev evs IH]; intros st fd s' Hres Hend; simpl in Hend.
  - eauto.
  - destruct ev as [fd0 | fd0 [| rpc]]; simpl in Hend.
    + destruct (IH _ _ _ Hres Hend) as (s & Hs & Hb). simpl in Hs.
      apply lookup_delete_Some in Hs as [_ Hs]. eauto.
    + eauto.
    + destruct (ranges st !! fd0) as [s0|] eqn:Hfd0; [|eauto].
      destruct (dispatch reserve (pagemap st) s0 rpc)
        as [[[reply pm'] s1]|] eqn:Hd; [|eauto].
      destruct (IH _ _ _ Hres Hend) as (s & Hs & Hb1 & Hb2). simpl in Hs.
      destruct (decide (fd0 = fd)) as [->|Hne].
      * rewrite lookup_insert_eq in Hs. inversion Hs; subst s1.
        destruct (dispatch_keeps_range_bounds _ _ _ _ _ _ Hres Hd) as [? ?].
        exists s0. split; [exact Hfd0|]. split; congruence.
      * rewrite lookup_insert_ne in Hs by exact Hne. eauto.
Qed.

(** X5. A call whose kind is none of the enumeration is answered with
    [error = 1] and a null result, and nothing but the log of responses
    changes. *)
Theorem unknown_call_is_rejected st fd s raw a0 a1 :
  ranges st !! fd = Some s ->
  run_iteration reserve st
    (Readable fd (WholeRequest {| kind := UnknownCall raw;
                                  arg0 := a0; arg1 := a1 |}))
  = Continue {| pagemap := pagemap st; ranges := ranges st;
                closed := closed st;
                written := written st ++ [(fd, rejected)] |}.
Proof.
  intros Hfd. unfold run_iteration. rewrite Hfd. simpl.
  now rewrite insert_id.
Qed.

(** X6. The host leaves the loop at the first short read: what the poller
    would have delivered after it has no effect on the state the service
    ends in. *)
Theorem short_read_ends_the_service evs : forall st fd later,
  run reserve st (evs ++ Readable fd ShortRead :: later)
  = run reserve st evs.
Proof.
  induction evs as [|ev evs IH]; intros st fd later; simpl.
  - reflexivity.
  - destruct (run_iteration reserve st ev); [apply IH | reflexivity].
Qed.

(** X7. After the peer has closed a channel, every request that arrives under
    the same descriptor number is dropped: none is answered and none changes
    the table, until the descriptor is registered again. *)
Theorem requests_on_closed_channel_are_dropped rpcs : forall st fd,
  run reserve st
    (Eof fd :: map (fun rpc => Readable fd (WholeRequest rpc)) rpcs)
  = {| pagemap := pagemap st; ranges := delete fd (ranges st);
       closed := closed st ++ [fd]; written := written st |}.
Proof.
  intros st fd. change (run reserve st (Eof fd :: ?l)) with
    (run reserve {| pagemap := pagemap st; ranges := delete fd (ranges st);
                    closed := closed st ++ [fd]; written := written st |}
       (map (fun rpc => Readable fd (WholeRequest rpc)) rpcs)).
  set (st1 := {| pagemap := pagemap st; ranges := delete fd (ranges st);
                 closed := closed st ++ [fd]; written := written st |}).
  assert (Hgone : ranges st1 !! fd = None) by apply lookup_delete_eq.
  clearbody st1. induction rpcs as [|rpc rpcs IH]; simpl; [reflexivity|].
  rewrite Hgone. exact IH.
Qed.

(** X8. The responses already written are never altered, and a run writes at
    most one response for every event the poller delivers. *)
Theorem run_appends_at_most_one_response_per_event evs : forall st,
  exists replies,
    written (run reserve st evs) = written st ++ replies
    /\ (length replies <= length evs)%nat.
Proof.
  induction evs as [|ev evs IH]; intros st; simpl.
  - exists []. rewrite app_nil_r. auto.
  - destruct ev as [fd | fd [| rpc]]; simpl.
    + destruct (IH {| pagemap := pagemap st; ranges := delete fd (ranges st);
                      closed := closed st ++ [fd]; written := written st |})
        as (replies & Hw & Hl).
      exists replies. split; [exact Hw | lia].
    + exists []. rewrite app_nil_r. split; [reflexivity | simpl; lia].
    + destruct (ranges st !! fd) as [s|].
      * destruct (dispatch reserve (pagemap st) s rpc) as [[[reply pm'] s']|].
        -- match goal with
           | |- context [run reserve ?st1 evs] =>
               destruct (IH st1) as (replies & Hw & Hl)
           end.
           simpl in Hw. exists ((fd, reply) :: replies).
           rewrite Hw, <- app_assoc. split; [reflexivity | simpl; lia].
        -- exists []. rewrite app_nil_r. split; [reflexivity | simpl; lia].
      * destruct (IH st) as (replies & Hw & Hl).
        exists replies. split; [exact Hw | lia].
Qed.

(** X9. A contained range call for less than one superslab updates the
    canonical table and copies nothing: the shared page of the child is
    left as it was. *)
Theorem small_range_call_skips_shared_page pm s rpc :
  provider_wf (memory_provider s) ->
  well_formed rpc ->
  kind rpc = ChunkMapSetRange \/ kind rpc = ChunkMapClearRange ->
  2 ^ arg1 rpc < SUPERSLAB_SIZE ->
  contains (memory_provider s) (arg0 rpc) (2 ^ arg1 rpc) = true ->
  dispatch reserve pm s rpc
  = Some ({| error := 0; result := 0 |}, requested_update pm rpc, s).
Proof.
  intros Hwf [Ha0 Ha1] Hk Hsmall Hc.
  assert (Hlt : arg1 rpc < 64).
  { apply (contained_power_small (memory_provider s) (arg0 rpc));
      [exact Hwf | apply Ha0 | apply Ha1 | exact Hc]. }
  assert (Hsh : shl1 (arg1 rpc) = 2 ^ arg1 rpc).
  { apply shl1_small. split; [apply Ha1 | exact Hlt]. }
  assert (Hz : 2 ^ arg1 rpc / SUPERSLAB_SIZE = 0).
  { apply Z.div_small. split; [apply Z.pow_nonneg; lia | exact Hsmall]. }
  unfold dispatch, validate_and_insert, check_large_update, propagate,
    requested_update.
  destruct Hk as [Hk|Hk]; rewrite Hk, Hsh, Hc, Hz;
    rewrite copy_entries_nonpos by lia; destruct s; reflexivity.
Qed.

End ServiceInvariants.

(** ** The adaptor of the host allocator *)
Section AdaptorProperties.
Context `{Snmalloc} `{EmptyPool}.
Variable reserve : SharedMemoryProvider -> Z -> Z * SharedMemoryProvider.



(** X11. A range call that the service accepts leaves the canonical table and
    the shared page exactly as the adaptor of the host leaves them for the
    same address and size: the child cannot obtain through the service a
    state that the host allocator would not produce itself.  The provider
    of the sandbox is not touched. *)
Theorem accepted_range_call_is_adaptor_update pm s rpc :
  provider_wf (memory_provider s) ->
  well_formed rpc ->
  kind rpc = ChunkMapSetRange \/ kind rpc = ChunkMapClearRange ->
  contains (memory_provider s) (arg0 rpc) (2 ^ arg1 rpc) = true ->
  let a := {| Adaptor.global_pagemap := pm;
              Adaptor.shared_page := shared_page s |} in
  let a' := match kind rpc with
            | ChunkMapSetRange =>
                Adaptor.set_large_size a (arg0 rpc) (2 ^ arg1 rpc)
            | _ => Adaptor.clear_large_size a (arg0 rpc) (2 ^ arg1 rpc)
            end in
  exists s',
    dispatch reserve pm s rpc
    = Some ({| error := 0; result := 0 |}, Adaptor.global_pagemap a', s')
    /\ shared_page s' = Adaptor.shared_page a'
    /\ memory_provider s' = memory_provider s.
Proof.
  intros Hwf [Ha0 Ha1] Hk Hc a a'.
  assert (Hlt : arg1 rpc < 64).
  { apply (contained_power_small (memory_provider s) (arg0 rpc));
      [exact Hwf | apply Ha0 | apply Ha1 | exact Hc]. }
  assert (Hsh : shl1 (arg1 rpc) = 2 ^ arg1 rpc).
  { apply shl1_small. split; [apply Ha1 | exact Hlt]. }
  exists {| memory_provider := memory_provider s;
            shared_page := Adaptor.shared_page a' |}.
  split; [|split; reflexivity].
  unfold dispatch, validate_and_insert, check_large_update, propagate,
    with_page.
  unfold a', a. destruct Hk as [Hk|Hk]; rewrite Hk, Hsh, Hc; reflexivity.
Qed.

End AdaptorProperties.

(** ** The call protocol: the other ways a call ends *)

Lemma send_loop_child_completes w rest :
  Call.is_child_executing w = true ->
  Call.child w = Call.Running ->
  Call.send_loop w (Call.Completes :: rest)
  = Call.Returns (Call.signal w false).
Proof.
  intros Hflag Hchild. destruct w as [fi mb ex pid exd st ch].
  simpl in *. subst ex ch. reflexivity.
Qed.

(** X12. A call returns in the turn in which the child signals completion, with
    the flag cleared, the function index and the argument frame as [send]
    wrote them, and the child neither reaped nor marked as exited. *)
Theorem send_returns_on_completion w idx ptr n rest :
  0 < Call.child_proc w ->
  Call.child w = Call.Running ->
  Call.send w idx ptr (repeat Call.Works n ++ Call.Completes :: rest)
  = Call.Returns
      {| Call.function_index := idx; Call.msg_buffer := ptr;
         Call.is_child_executing := false;
         Call.child_proc := Call.child_proc w;
         Call.child_exited := Call.child_exited w;
         Call.child_status := Call.child_status w;
         Call.child := Call.Running |}.
Proof.
  intros Hpid Hchild. unfold Call.send.
  set (w1 := Call.signal _ true).
  assert (H1 : 0 < Call.child_proc w1) by exact Hpid.
  assert (H2 : Call.is_child_executing w1 = true) by reflexivity.
  assert (H3 : Call.child w1 = Call.Running) by exact Hchild.
  induction n as [|n IH].
  - cbn [repeat app]. rewrite send_loop_child_completes by assumption.
    unfold w1, Call.signal, Call.set_executing. simpl. now rewrite Hchild.
  - change (repeat Call.Works (S n) ++ Call.Completes :: rest)
      with (Call.Works :: (repeat Call.Works n ++ Call.Completes :: rest)).
    rewrite send_loop_child_works by assumption. exact IH.
Qed.

(** X13. There is no limit on the time a call may take: as long as the child is
    alive and has not signalled completion the host stays in the loop of
    [send], however many timed waits pass. *)
Theorem send_waits_for_working_child w idx ptr n :
  0 < Call.child_proc w ->
  Call.child w = Call.Running ->
  Call.send w idx ptr (repeat Call.Works n)
  = Call.Waiting
      {| Call.function_index := idx; Call.msg_buffer := ptr;
         Call.is_child_executing := true;
         Call.child_proc := Call.child_proc w;
         Call.child_exited := Call.child_exited w;
         Call.child_status := Call.child_status w;
         Call.child := Call.Running |}.
Proof.
  intros Hpid Hchild. unfold Call.send.
  set (w1 := Call.signal _ true).
  assert (H1 : 0 < Call.child_proc w1) by exact Hpid.
  assert (H2 : Call.is_child_executing w1 = true) by reflexivity.
  assert (H3 : Call.child w1 = Call.Running) by exact Hchild.
  induction n as [|n IH].
  - simpl. unfold w1, Call.signal, Call.set_executing. simpl.
    now rewrite Hchild.
  - change (repeat Call.Works (S n)) with (Call.Works :: repeat Call.Works n).
    rewrite send_loop_child_works by assumption. exact IH.
Qed.

(** X14. The liveness check reaps the child.  A call made after a call has
    thrown finds nothing to wait for: [waitpid] fails, and the host process
    exits through [err]. *)
Theorem send_after_reported_exit_ends_host w idx ptr n status rest
    idx' ptr' ev later :
  0 < Call.child_proc w ->
  Call.child w = Call.Running ->
  exists w',
    Call.send w idx ptr (repeat Call.Works n ++ Call.Dies status :: rest)
    = Call.Throws w'
    /\ Call.send w' idx' ptr' (ev :: later) = Call.HostExits.
Proof.
  intros Hpid Hchild. unfold Call.send at 1.
  rewrite send_loop_reports_death; [| exact Hpid | reflexivity | exact Hchild].
  eexists. split; [reflexivity|].
  unfold Call.send, Call.signal, Call.set_executing. simpl.
  unfold Call.child_step. simpl. destruct ev; reflexivity.
Qed.

(** X15. [WEXITSTATUS] of the status of a child killed by a signal is zero: a
    child that crashed is recorded with the [child_status] of a child that
    exited with code [0]. *)
Theorem signalled_child_recorded_as_status_zero w idx ptr n status rest :
  0 < Call.child_proc w ->
  Call.child w = Call.Running ->
  0 <= status < 256 ->
  exists w',
    Call.send w idx ptr (repeat Call.Works n ++ Call.Dies status :: rest)
    = Call.Throws w'
    /\ Call.child_status w' = 0.
Proof.
  intros Hpid Hchild Hst. unfold Call.send.
  rewrite send_loop_reports_death; [| exact Hpid | reflexivity | exact Hchild].
  eexists. split; [reflexivity|]. simpl. unfold Call.WEXITSTATUS.
  rewrite Z.shiftr_div_pow2 by lia. rewrite Z.div_small by lia.
  reflexivity.
Qed.

(** X16. For valid readings, the deadline of the timed wait is never
    normalised: the carry into the seconds is the overflow of a [long], which
    nanoseconds below a second cannot produce, so whenever the two
    nanosecond fields sum to a second or more the deadline handed to
    [pthread_cond_timedwait] has a [tv_nsec] outside the valid range. *)
Theorem deadline_is_not_normalised now timeout :
  0 <= Call.tv_nsec now < 10 ^ 9 -> 0 <= Call.tv_nsec timeout < 10 ^ 9 ->
  0 <= Call.tv_sec now < 2 ^ 62 -> 0 <= Call.tv_sec timeout < 2 ^ 62 ->
  10 ^ 9 <= Call.tv_nsec now + Call.tv_nsec timeout ->
  10 ^ 9 <= Call.tv_nsec (Call.deadline now timeout)
  /\ Call.tv_sec (Call.deadline now timeout)
     = Call.tv_sec now + Call.tv_sec timeout.
Proof.
  intros Hn1 Hn2 Hs1 Hs2 Hsum.
  rewrite deadline_adds_fields by assumption. simpl. lia.
Qed.

(** ** Shutdown *)

(** X17. Once a call has thrown, the exit of the child is on record:
    [wait_for_child_exit] returns the recorded status at once, without
    setting [should_exit] and without waiting for a child that is no longer
    there. *)
Theorem shutdown_after_reported_exit w idx ptr n status rest should_exit fate :
  0 < Call.child_proc w ->
  Call.child w = Call.Running ->
  exists w',
    Call.send w idx ptr (repeat Call.Works n ++ Call.Dies status :: rest)
    = Call.Throws w'
    /\ Lifecycle.wait_for_child_exit w' should_exit fate
       = Call.Returns (Call.WEXITSTATUS status, should_exit, w').
Proof.
  intros Hpid Hchild. unfold Call.send.
  rewrite send_loop_reports_death; [| exact Hpid | reflexivity | exact Hchild].
  eexists. split; reflexivity.
Qed.

(** X18. The first [wait_for_child_exit] on a live child that then terminates
    sets [should_exit], wakes the child, and returns [1] whatever the status
    of the child; the status is recorded, and it is the call after that
    which returns it. *)
Theorem first_shutdown_returns_one w should_exit status fate' :
  0 < Call.child_proc w ->
  Call.child w = Call.Running ->
  Call.child_exited w = false ->
  Lifecycle.WIFEXITED status || Lifecycle.WIFSIGNALED status = true ->
  exists w',
    Lifecycle.wait_for_child_exit w should_exit (Some status)
    = Call.Returns (1, true, w')
    /\ Call.is_child_executing w' = true
    /\ Call.child w' = Call.Reaped
    /\ Call.child_status w' = Call.WEXITSTATUS status
    /\ Lifecycle.wait_for_child_exit w' true fate'
       = Call.Returns (Call.WEXITSTATUS status, true, w').
Proof.
  intros Hpid Hchild Hexd Hst. destruct w as [fi mb ex pid exd st ch].
  simpl in *. subst exd ch.
  unfold Lifecycle.wait_for_child_exit, Lifecycle.waitpid_blocking. simpl.
  destruct pid as [|pid|pid]; try lia. simpl.
  rewrite Pos.eqb_refl, Hst. simpl.
  eexists. split; [reflexivity|]. simpl. auto.
Qed.

(** ** The launcher: the ways it does not reach [execve] *)
Section LauncherEdges.
Import Launcher.
Context {File : Type}.
Variable filesystem : string -> option File.

Local Abbreviation FdTable := (list (option File)).

(** With [x = -1] the loop of [move_fd] never ends: [dup(-1)] fails with
    [-1], which is below [last_fd] again. *)
Lemma move_loop_stuck fuel (t : FdTable) :
  move_loop File fuel t (-1) = Unfinished.
Proof. induction fuel as [|fuel IH]; simpl; [reflexivity | exact IH]. Qed.

(** X19. [move_fd] on a descriptor number below [last_fd] that is not open does
    not return, however long it runs: the first [dup] fails and the loop
    goes on with [-1].  Handed such a number for the shared heap,
    [start_child] never gets past its first line. *)
Theorem unopened_descriptor_hangs_launcher (t : FdTable) x :
  fd_lookup File t x = None ->
  0 <= x < last_fd ->
  forall fuel library_name pagemap0 rpc0 sock0,
    move_fd File fuel t x = Unfinished
    /\ start_child File filesystem fuel t library_name pagemap0 rpc0 sock0 x
       = Unfinished.
Proof.
  intros Hx [Hnn Hlow] fuel library_name pagemap0 rpc0 sock0.
  assert (Hmove : move_fd File fuel t x = Unfinished).
  { unfold move_fd, assert. apply Z.leb_le in Hnn. rewrite Hnn.
    unfold mbind, launch_bind. destruct fuel as [|fuel]; simpl.
    - apply Z.leb_gt in Hlow. now rewrite Hlow.
    - apply Z.leb_gt in Hlow. rewrite Hlow. unfold dup. rewrite Hx.
      apply move_loop_stuck. }
  split; [exact Hmove|].
  unfold start_child, move_out, mbind, launch_bind. now rewrite Hmove.
Qed.

(** X20. When the four descriptors handed to [start_child] are open and the
    library cannot be opened, the child side ends in [_exit(-1)]: it
    neither stays in [move_fd], nor fails an assertion, nor reaches
    [execve], whatever the library directories are. *)
Theorem library_not_found_exits fuel (t : FdTable) library_name
    pagemap0 rpc0 sock0 shm0 f_shm f_pagemap f_rpc f_sock :
  (12 <= fuel)%nat ->
  fd_lookup File t shm0 = Some f_shm ->
  fd_lookup File t pagemap0 = Some f_pagemap ->
  fd_lookup File t rpc0 = Some f_rpc ->
  fd_lookup File t sock0 = Some f_sock ->
  filesystem library_name = None ->
  start_child File filesystem fuel t library_name pagemap0 rpc0 sock0 shm0
  = Exit (-1).
Proof.
  intros Hfuel Hshm Hpm Hrpc Hsock Hlib.
  assert (Hf : forall t' : FdTable, (free_slots File 11 t' < fuel)%nat).
  { intros t'. pose proof (free_slots_le (File := File) 11 t'). lia. }
  destruct (move_fd_moves fuel t shm0 f_shm Hshm (Hf _))
    as (shm1 & ta & Ha & _ & _ & Ea).
  destruct (move_fd_moves fuel ta pagemap0 f_pagemap (Ea _ _ Hpm) (Hf _))
    as (pm1 & tb & Hb & _ & _ & Eb).
  destruct (move_fd_moves fuel tb sock0 f_sock (Eb _ _ (Ea _ _ Hsock)) (Hf _))
    as (sock1 & tc & Hc & _ & _ & Ec).
  destruct (move_fd_moves fuel tc rpc0 f_rpc
              (Ec _ _ (Eb _ _ (Ea _ _ Hrpc))) (Hf _))
    as (rpc1 & td & Hd & _ & _ & Ed).
  unfold start_child, move_out, mbind, launch_bind.
  rewrite Ha; cbv beta iota. rewrite Hb; cbv beta iota.
  rewrite Hc; cbv beta iota. rewrite Hd; cbv beta iota.
  unfold open. rewrite Hlib. reflexivity.
Qed.

(** A directory that cannot be opened stops the loop over the library
    directories at the assertion of [move_fd]. *)
Lemma open_libdirs_fails fuel dirs : forall (t : FdTable),
  (12 <= fuel)%nat ->
  Exists (fun d => filesystem d = None) dirs ->
  open_libdirs File filesystem fuel t dirs = Exit 134.
Proof.
  induction dirs as [|d dirs IH]; intros t Hfuel Hex.
  - inversion Hex.
  - simpl. destruct (filesystem d) as [f|] eqn:Hd.
    + assert (Hrest : Exists (fun d => filesystem d = None) dirs).
      { inversion Hex; subst; [congruence | assumption]. }
      destruct (open_opens filesystem t d f Hd) as (fd & t1 & Ho & Hfd & _).
      rewrite Ho.
      destruct (move_fd_moves fuel t1 fd f Hfd) as (fd' & t2 & Hm & _).
      { pose proof (free_slots_le (File := File) 11 t1). lia. }
      unfold mbind, launch_bind. rewrite Hm; cbv beta iota.
      now rewrite (IH t2 Hfuel Hrest).
    + unfold open. rewrite Hd. reflexivity.
Qed.

(** X21. When one of [/lib], [/usr/lib] and [/usr/local/lib] cannot be opened
    the child side stops at the assertion of [move_fd], called with the
    [-1] of the failed [open]: it does not reach [execve] with fewer
    directories. *)
Theorem missing_library_directory_aborts fuel (t : FdTable) library_name
    pagemap0 rpc0 sock0 shm0 f_shm f_pagemap f_rpc f_sock f_lib :
  (12 <= fuel)%nat ->
  fd_lookup File t shm0 = Some f_shm ->
  fd_lookup File t pagemap0 = Some f_pagemap ->
  fd_lookup File t rpc0 = Some f_rpc ->
  fd_lookup File t sock0 = Some f_sock ->
  filesystem library_name = Some f_lib ->
  Exists (fun d => filesystem d = None) libdirs ->
  start_child File filesystem fuel t library_name pagemap0 rpc0 sock0 shm0
  = Exit 134.
Proof.
  intros Hfuel Hshm Hpm Hrpc Hsock Hlib Hdirs.
  assert (Hf : forall t' : FdTable, (free_slots File 11 t' < fuel)%nat).
  { intros t'. pose proof (free_slots_le (File := File) 11 t'). lia. }
  destruct (move_fd_moves fuel t shm0 f_shm Hshm (Hf _))
    as (shm1 & ta & Ha & _ & _ & Ea).
  destruct (move_fd_moves fuel ta pagemap0 f_pagemap (Ea _ _ Hpm) (Hf _))
    as (pm1 & tb & Hb & _ & _ & Eb).
  destruct (move_fd_moves fuel tb sock0 f_sock (Eb _ _ (Ea _ _ Hsock)) (Hf _))
    as (sock1 & tc & Hc & _ & _ & Ec).
  destruct (move_fd_moves fuel tc rpc0 f_rpc
              (Ec _ _ (Eb _ _ (Ea _ _ Hrpc))) (Hf _))
    as (rpc1 & td & Hd & _ & _ & Ed).
  destruct (open_opens filesystem td library_name f_lib Hlib)
    as (lib0 & te & He & Llib0 & Ee).
  destruct (move_fd_moves fuel te lib0 f_lib Llib0 (Hf _))
    as (lib1 & tf & Hmf & _).
  unfold start_child, move_out, mbind, launch_bind.
  rewrite Ha; cbv beta iota. rewrite Hb; cbv beta iota.
  rewrite Hc; cbv beta iota. rewrite Hd; cbv beta iota. rewrite He.
  pose proof (fd_lookup_nonneg _ _ _ Llib0) as Hnn.
  apply Z.ltb_ge in Hnn. rewrite Hnn. rewrite Hmf; cbv beta iota.
  now rewrite (open_libdirs_fails fuel libdirs tf Hfuel Hdirs).
Qed.

End LauncherEdges.

(** ** The launcher: what is left below the fixed slots *)
Section LauncherLeak.
Import Launcher.
Context {File : Type}.
Variable filesystem : string -> option File.

Local Abbreviation FdTable := (list (option File)).

(** Nothing in the first half of [start_child] closes or redirects a
    descriptor: [dup] and [open] only take free slots. *)
Lemma install_lowest_extends (t : FdTable) f fd g :
  fd_lookup File t fd = Some g ->
  fd_lookup File (install File t (lowest_free File t) f) fd = Some g.
Proof.
  intros Hfd. rewrite fd_lookup_install. case_decide as Heq; [|exact Hfd].
  subst fd. rewrite lowest_free_is_free in Hfd. discriminate.
Qed.

Lemma move_loop_extends fuel : forall (t : FdTable) x x' t',
  move_loop File fuel t x = Ok (x', t') ->
  forall fd g, fd_lookup File t fd = Some g -> fd_lookup File t' fd = Some g.
Proof.
  induction fuel as [|fuel IH]; intros t x x' t' Hrun fd g Hfd; simpl in Hrun;
    destruct (last_fd <=? x); try discriminate;
    try (inversion Hrun; subst; exact Hfd).
  unfold dup in Hrun. destruct (fd_lookup File t x) as [f|].
  - eapply IH; [exact Hrun|]. now apply install_lowest_extends.
  - eapply IH; [exact Hrun | exact Hfd].
Qed.

Lemma move_fd_extends fuel (t : FdTable) x x' t' :
  move_fd File fuel t x = Ok (x', t') ->
  forall fd g, fd_lookup File t fd = Some g -> fd_lookup File t' fd = Some g.
Proof.
  unfold move_fd, assert, mbind, launch_bind.
  destruct (0 <=? x); [|discriminate]. apply move_loop_extends.
Qed.

Lemma open_extends (t : FdTable) name fd' t' :
  open File filesystem t name = (fd', t') ->
  forall fd g, fd_lookup File t fd = Some g -> fd_lookup File t' fd = Some g.
Proof.
  unfold open. destruct (filesystem name) as [f|]; intros Heq fd g Hfd;
    inversion Heq; subst; [now apply install_lowest_extends | exact Hfd].
Qed.

Lemma open_libdirs_extends fuel dirs : forall (t : FdTable) fds t',
  open_libdirs File filesystem fuel t dirs = Ok (fds, t') ->
  forall fd g, fd_lookup File t fd = Some g -> fd_lookup File t' fd = Some g.
Proof.
  induction dirs as [|d dirs IH]; intros t fds t' Hrun fd g Hfd;
    simpl in Hrun.
  - inversion Hrun; subst. exact Hfd.
  - destruct (open File filesystem t d) as [fd0 t1] eqn:Ho.
    unfold mbind, launch_bind in Hrun.
    destruct (move_fd File fuel t1 fd0) as [[fd1 t2]| |] eqn:Hm;
      try discriminate.
    destruct (open_libdirs File filesystem fuel t2 dirs)
      as [[fds' t3]| |] eqn:Hl; try discriminate.
    inversion Hrun; subst.
    eapply IH; [exact Hl|]. eapply move_fd_extends; [exact Hm|].
    eapply open_extends; [exact Ho | exact Hfd].
Qed.

(** The first [dup] of [move_fd] takes the lowest free descriptor. *)
Lemma move_fd_takes_lowest_free fuel (t : FdTable) x f x' t' :
  move_fd File fuel t x = Ok (x', t') ->
  fd_lookup File t x = Some f ->
  x < last_fd ->
  fd_lookup File t' (Z.of_nat (lowest_free File t)) = Some f.
Proof.
  unfold move_fd, assert, mbind, launch_bind.
  destruct (0 <=? x); [|discriminate].
  intros Hrun Hx Hlow. destruct fuel as [|fuel]; simpl in Hrun;
    apply Z.leb_gt in Hlow; rewrite Hlow in Hrun; [discriminate|].
  unfold dup in Hrun. rewrite Hx in Hrun.
  eapply move_loop_extends; [exact Hrun|].
  rewrite fd_lookup_install. now rewrite decide_True.
Qed.

Lemma dup2_elsewhere (t : FdTable) oldfd newfd fd :
  fd <> newfd ->
  fd_lookup File (snd (dup2 File t oldfd newfd)) fd = fd_lookup File t fd.
Proof.
  intros Hne. unfold dup2. destruct (fd_lookup File t oldfd) as [f|];
    [|reflexivity].
  destruct (newfd <? 0) eqn:Hneg; [reflexivity|]. simpl.
  apply Z.ltb_ge in Hneg. rewrite fd_lookup_placed by exact Hneg.
  now rewrite decide_False.
Qed.

Lemma place_libdirs_below fds : forall (t : FdTable) rtldfd fd,
  fd < rtldfd ->
  fd_lookup File (place_libdirs File t fds rtldfd) fd = fd_lookup File t fd.
Proof.
  induction fds as [|libfd fds IH]; intros t rtldfd fd Hlt; simpl;
    [reflexivity|].
  rewrite IH by lia. apply dup2_elsewhere. lia.
Qed.

(** The second half of [start_child] writes the fixed slots only: below
    [SharedMemRegion] the table it ends with is the table it started
    with. *)
Lemma place_keeps_standard_descriptors (t : FdTable) m t2 fd :
  place File t m = Ok t2 ->
  fd < SharedMemRegion ->
  fd_lookup File t2 fd = fd_lookup File t fd.
Proof.
  unfold place, SharedMemRegion, PageMapPage, FDSocket, MainLibrary,
    PageMapUpdates, OtherLibraries, assert, mbind, launch_bind.
  intros Hrun Hfd.
  destruct (dup2 File t (shm_fd m) 3) as [r3 t3] eqn:H3.
  destruct (dup2 File t3 (pagemap_mem m) 4) as [r4 t4] eqn:H4.
  destruct (dup2 File t4 (fd_socket m) 5) as [r5 t5] eqn:H5.
  destruct (negb (library m =? 0)); [|discriminate].
  destruct (dup2 File t5 (library m) 6) as [r6 t6] eqn:H6.
  destruct (r6 =? 6); [|discriminate].
  destruct (dup2 File t6 (malloc_rpc_socket m) 7) as [r7 t7] eqn:H7.
  inversion Hrun; subst t2; clear Hrun.
  rewrite fd_lookup_closefrom by (rewrite last_fd_value; lia).
  rewrite last_fd_value, decide_True by lia.
  rewrite place_libdirs_below by lia.
  replace t7 with (snd (dup2 File t6 (malloc_rpc_socket m) 7))
    by now rewrite H7.
  rewrite dup2_elsewhere by lia.
  replace t6 with (snd (dup2 File t5 (library m) 6)) by now rewrite H6.
  rewrite dup2_elsewhere by lia.
  replace t5 with (snd (dup2 File t4 (fd_socket m) 5)) by now rewrite H5.
  rewrite dup2_elsewhere by lia.
  replace t4 with (snd (dup2 File t3 (pagemap_mem m) 4)) by now rewrite H4.
  rewrite dup2_elsewhere by lia.
  replace t3 with (snd (dup2 File t (shm_fd m) 3)) by now rewrite H3.
  now rewrite dup2_elsewhere by lia.
Qed.

(** X22. The duplicates that [move_fd] makes on its way up are never closed.
    If a standard descriptor is free when [start_child] is entered and the
    descriptor of the shared heap is below [last_fd], the lowest free
    standard descriptor refers to the shared heap when the new program
    image starts. *)
Theorem free_standard_descriptor_receives_shared_heap fuel (t : FdTable)
    library_name pagemap0 rpc0 sock0 shm0 f_shm t2 :
  start_child File filesystem fuel t library_name pagemap0 rpc0 sock0 shm0
  = Ok t2 ->
  fd_lookup File t shm0 = Some f_shm ->
  shm0 < last_fd ->
  Z.of_nat (lowest_free File t) < SharedMemRegion ->
  fd_lookup File t2 (Z.of_nat (lowest_free File t)) = Some f_shm.
Proof.
  unfold start_child, move_out, mbind, launch_bind.
  intros Hrun Hshm Hlow Hfree.
  destruct (move_fd File fuel t shm0) as [[shm1 ta]| |] eqn:Ha;
    try discriminate.
  destruct (move_fd File fuel ta pagemap0) as [[pm1 tb]| |] eqn:Hb;
    try discriminate.
  destruct (move_fd File fuel tb sock0) as [[sock1 tc]| |] eqn:Hc;
    try discriminate.
  destruct (move_fd File fuel tc rpc0) as [[rpc1 td]| |] eqn:Hd;
    try discriminate.
  destruct (open File filesystem td library_name) as [lib0 te] eqn:He.
  destruct (lib0 <? 0); [discriminate|].
  destruct (move_fd File fuel te lib0) as [[lib1 tf]| |] eqn:Hmf;
    try discriminate.
  destruct (open_libdirs File filesystem fuel tf libdirs)
    as [[dirs1 tg]| |] eqn:Hg; try discriminate.
  cbv beta iota in Hrun.
  rewrite (place_keeps_standard_descriptors _ _ _ _ Hrun Hfree).
  eapply open_libdirs_extends; [exact Hg|].
  eapply move_fd_extends; [exact Hmf|].
  eapply open_extends; [exact He|].
  eapply move_fd_extends; [exact Hd|].
  eapply move_fd_extends; [exact Hc|].
  eapply move_fd_extends; [exact Hb|].
  eapply move_fd_takes_lowest_free; [exact Ha | exact Hshm | exact Hlow].
Qed.

End LauncherLeak.

(** ** The location string *)

Lemma string_length_append (s1 s2 : string) :
  String.length (s1 +:+ s2) = (String.length s1 + String.length s2)%nat.
Proof. induction s1 as [|c s1 IH]; simpl; [reflexivity | now rewrite IH]. Qed.

(** A number below [16 ^ k] prints in at most [k] digits, whatever the fuel
    of the loop. *)
Lemma hex_loop_length fuel : forall n acc (k : nat),
  0 <= n < 16 ^ Z.of_nat k -> (1 <= k)%nat ->
  (String.length (Location.hex_loop fuel n acc) <= k + String.length acc)%nat.
Proof.
  induction fuel as [|fuel IH]; intros n acc k Hn Hk; simpl; [lia|].
  destruct (n / 16 =? 0) eqn:Hq; simpl; [lia|].
  apply Z.eqb_neq in Hq.
  assert (H16 : 16 <= n).
  { destruct (Z_lt_le_dec n 16) as [Hlt|Hge]; [|exact Hge].
    rewrite Z.div_small in Hq by lia. congruence. }
  destruct k as [|[|k]]; [lia | |].
  - change (16 ^ Z.of_nat 1) with 16 in Hn. lia.
  - specialize (IH (n / 16)
                  (String (Location.hex_digit (n mod 16)) acc) (S k)).
    simpl String.length in IH.
    assert (Hdiv : 0 <= n / 16 < 16 ^ Z.of_nat (S k)).
    { split; [apply Z.div_pos; lia|].
      apply Z.div_lt_upper_bound; [lia|].
      replace (Z.of_nat (S (S k))) with (Z.succ (Z.of_nat (S k))) in Hn by lia.
      rewrite Z.pow_succ_r in Hn by lia. lia. }
    specialize (IH Hdiv ltac:(lia)). lia.
Qed.

(** X23. The assertion [loc_len < sizeof(location)] of [start_child] holds for
    every address and size of 64 bits: the string has at most 50
    characters, so [snprintf] never truncates it in the 52 bytes of the
    buffer. *)
Theorem location_fits_buffer sharedmem_addr shm_size :
  is_word sharedmem_addr -> is_word shm_size ->
  Location.loc_len sharedmem_addr shm_size <= 50
  /\ Location.loc_len sharedmem_addr shm_size < Location.location_size.
Proof.
  intros Ha Hs.
  assert (Hhex : forall n, is_word n ->
            (String.length (Location.to_hex n) <= 16)%nat).
  { intros n Hn. unfold Location.to_hex.
    pose proof (hex_loop_length (S (Z.to_nat (Z.log2 n))) n "" 16) as Hl.
    simpl String.length in Hl. rewrite Nat.add_0_r in Hl. apply Hl; [|lia].
    unfold is_word, modulus in Hn. change (16 ^ Z.of_nat 16) with (2 ^ 64).
    exact Hn. }
  assert (Hlen : Location.loc_len sharedmem_addr shm_size <= 50).
  { unfold Location.loc_len, Location.location.
    rewrite !string_length_append. simpl String.length.
    pose proof (Hhex _ Ha). pose proof (Hhex _ Hs). lia. }
  split; [exact Hlen|]. unfold Location.location_size. lia.
Qed.

Lemma digit_value_hex_digit d :
  0 <= d < 16 -> Location.digit_value (Location.hex_digit d) = d.
Proof.
  intros Hd.
  assert (Hcases : d = 0 \/ d = 1 \/ d = 2 \/ d = 3 \/ d = 4 \/ d = 5
                   \/ d = 6 \/ d = 7 \/ d = 8 \/ d = 9 \/ d = 10 \/ d = 11
                   \/ d = 12 \/ d = 13 \/ d = 14 \/ d = 15) by lia.
  repeat (destruct Hcases as [-> | Hcases]; [reflexivity|]).
  subst d. reflexivity.
Qed.

(** Read back, the digits of [n] in front of [acc] continue the number
    [n]. *)
Lemma hex_loop_value fuel : forall n acc,
  0 <= n < 16 ^ Z.of_nat fuel ->
  Location.from_hex (Location.hex_loop fuel n acc) 0
  = Location.from_hex acc n.
Proof.
  induction fuel as [|fuel IH]; intros n acc Hn.
  - change (16 ^ Z.of_nat 0) with 1 in Hn. assert (n = 0) by lia. now subst.
  - cbn [Location.hex_loop].
    assert (Hmod : 0 <= n mod 16 < 16) by (apply Z.mod_pos_bound; lia).
    destruct (n / 16 =? 0) eqn:Hq.
    + apply Z.eqb_eq in Hq. cbn [Location.from_hex].
      rewrite digit_value_hex_digit by exact Hmod.
      pose proof (Z.div_mod n 16 ltac:(lia)) as Hdm.
      f_equal. lia.
    + rewrite IH.
      * cbn [Location.from_hex].
        rewrite digit_value_hex_digit by exact Hmod.
        pose proof (Z.div_mod n 16 ltac:(lia)) as Hdm.
        f_equal. lia.
      * split; [apply Z.div_pos; lia|].
        apply Z.div_lt_upper_bound; [lia|].
        replace (Z.of_nat (S fuel)) with (Z.succ (Z.of_nat fuel)) in Hn by lia.
        rewrite Z.pow_succ_r in Hn by lia. lia.
Qed.

Lemma to_hex_reads_back n :
  0 <= n -> Location.from_hex (Location.to_hex n) 0 = n.
Proof.
  intros Hn. unfold Location.to_hex. rewrite hex_loop_value; [reflexivity|].
  split; [exact Hn|].
  replace (Z.of_nat (S (Z.to_nat (Z.log2 n)))) with (Z.succ (Z.log2 n))
    by (pose proof (Z.log2_nonneg n); lia).
  destruct (Z.eq_dec n 0) as [->|Hnz]; [reflexivity|].
  pose proof (Z.log2_spec n ltac:(lia)) as [_ Hlt].
  eapply Z.lt_le_trans; [exact Hlt|].
  apply Z.pow_le_mono_l. pose proof (Z.log2_nonneg n). lia.
Qed.

(** [%zx] is lossless: two numbers that print alike are the same number,
    so the child can recover the address and the size from the digits it
    is handed. *)
Lemma to_hex_injective n m :
  0 <= n -> 0 <= m -> Location.to_hex n = Location.to_hex m -> n = m.
Proof.
  intros Hn Hm Heq.
  rewrite <- (to_hex_reads_back n Hn), <- (to_hex_reads_back m Hm).
  now rewrite Heq.
Qed.

Lemma hex_digit_no_colon d : Ascii.eqb (Location.hex_digit d) ":" = false.
Proof.
  unfold Location.hex_digit. generalize (Z.to_nat d). intros k.
  do 16 (destruct k as [|k]; [reflexivity|]).
  destruct k; reflexivity.
Qed.

Lemma hex_loop_no_colon fuel : forall n acc,
  no_colon acc = true -> no_colon (Location.hex_loop fuel n acc) = true.
Proof.
  induction fuel as [|fuel IH]; intros n acc Hacc; simpl; [exact Hacc|].
  assert (Hstep : no_colon (String (Location.hex_digit (n mod 16)) acc)
                  = true).
  { simpl. now rewrite hex_digit_no_colon, Hacc. }
  destruct (n / 16 =? 0); [exact Hstep | now apply IH].
Qed.

(** Two strings without a colon, each followed by a colon and a rest, can
    only be equal part by part. *)
Lemma split_at_colon a : forall a' s s',
  no_colon a = true -> no_colon a' = true ->
  a +:+ String ":" s = a' +:+ String ":" s' -> a = a' /\ s = s'.
Proof.
  induction a as [|c a IH]; intros [|c' a'] s s' Ha Ha' Heq; simpl in *.
  - inversion Heq. auto.
  - inversion Heq; subst c'. discriminate.
  - inversion Heq; subst c. discriminate.
  - inversion Heq; subst c'.
    apply andb_true_iff in Ha as [_ Ha]. apply andb_true_iff in Ha' as [_ Ha'].
    destruct (IH a' s s' Ha Ha' H1) as [-> ->]. auto.
Qed.

Lemma append_prefix_inj (p x y : string) : p +:+ x = p +:+ y -> x = y.
Proof.
  induction p as [|c p IH]; intros Heq.
  - exact Heq.
  - change (String c (p +:+ x) = String c (p +:+ y)) in Heq.
    inversion Heq. auto.
Qed.

(** X24. The location string determines the address and the size it was
    formatted from: the digits of [%zx] hold no colon, so the first colon
    of the string is the separator, and the digits read back to the
    numbers. *)
Theorem location_determines_address_and_size addr sz addr' sz' :
  0 <= addr -> 0 <= sz -> 0 <= addr' -> 0 <= sz' ->
  Location.location addr sz = Location.location addr' sz' ->
  addr = addr' /\ sz = sz'.
Proof.
  intros Ha Hs Ha' Hs' Heq. unfold Location.location in Heq.
  apply append_prefix_inj in Heq.
  change (Location.to_hex addr +:+ String ":" (Location.to_hex sz)
          = Location.to_hex addr' +:+ String ":" (Location.to_hex sz'))
    in Heq.
  apply split_at_colon in Heq as [Haddr Hsz];
    try (unfold Location.to_hex; now apply hex_loop_no_colon).
  split; now apply to_hex_injective.
Qed.

(** ** The further properties on concrete inputs *)

Lemma rejection_changes_nothing_witness :
  (error rejected = 0 \/ error rejected = 1)
  /\ (error rejected = 1 ->
      result rejected = 0 /\ (∅ : FlatChunkMap) = ∅
      /\ example_sandbox = example_sandbox)
  /\ (result rejected <> 0 ->
      kind example_stray_set = MemoryProviderPopLargeStack
      \/ kind example_stray_set = MemoryProviderReserve).
Proof.
  apply (@rejection_changes_nothing flat_snmalloc null_when_empty
      reserve_nothing
           (∅ : FlatChunkMap) example_sandbox example_stray_set
           rejected (∅ : FlatChunkMap) example_sandbox).
  reflexivity.
Defined.

Lemma table_changes_only_by_metadata_calls_witness :
  pagemap (turn_state (@run_iteration flat_snmalloc null_when_empty
      reserve_nothing example_service
                         (Readable 7 (WholeRequest example_pop))))
  = pagemap example_service.
Proof.
  apply (@table_changes_only_by_metadata_calls flat_snmalloc null_when_empty
      reserve_nothing
           example_service (Readable 7 (WholeRequest example_pop))).
  reflexivity.
Defined.

Lemma run_keeps_range_bounds_witness :
  let evs := [Readable 7 (WholeRequest example_pop);
              Readable 7 (WholeRequest example_set_range);
              Readable 7 (WholeRequest example_stray_set)] in
  let s' := default example_sandbox
              (ranges (@run flat_snmalloc null_when_empty
                  reserve_nothing example_service evs) !! 7) in
  exists s,
    ranges example_service !! 7 = Some s
    /\ base (memory_provider s') = base (memory_provider s)
    /\ size (memory_provider s') = size (memory_provider s).
Proof.
  intros evs s'.
  apply (@run_keeps_range_bounds flat_snmalloc null_when_empty
      reserve_nothing evs
           example_service 7 s').
  - intros p c. split; reflexivity.
  - reflexivity.
Defined.

Lemma unknown_call_is_rejected_witness :
  @run_iteration flat_snmalloc null_when_empty reserve_nothing example_service
    (Readable 7 (WholeRequest {| kind := UnknownCall 99;
                                 arg0 := 2 ^ 32; arg1 := 0 |}))
  = Continue (@Build_Service flat_snmalloc (pagemap example_service)
                (ranges example_service) (closed example_service)
                (written example_service ++ [(7, rejected)])).
Proof.
  apply (@unknown_call_is_rejected flat_snmalloc null_when_empty reserve_nothing
           example_service 7 example_sandbox 99 (2 ^ 32) 0).
  reflexivity.
Defined.

Lemma small_range_call_skips_shared_page_witness :
  let rpc := {| kind := ChunkMapSetRange; arg0 := 2 ^ 32; arg1 := 12 |} in
  @dispatch flat_snmalloc null_when_empty reserve_nothing (∅ : FlatChunkMap)
    example_sandbox rpc
  = Some ({| error := 0; result := 0 |},
          @requested_update flat_snmalloc (∅ : FlatChunkMap) rpc,
          example_sandbox).
Proof.
  intros rpc.
  apply (@small_range_call_skips_shared_page flat_snmalloc null_when_empty
      reserve_nothing
           (∅ : FlatChunkMap) example_sandbox rpc).
  - exact example_provider_wf.
  - unfold well_formed, is_word. closed_arith.
  - left. reflexivity.
  - closed_arith.
  - reflexivity.
Defined.


Lemma accepted_range_call_is_adaptor_update_witness :
  let a' := Adaptor.set_large_size example_adaptor (2 ^ 32) (2 ^ 25) in
  exists s',
    @dispatch flat_snmalloc null_when_empty reserve_nothing
      (∅ : FlatChunkMap) example_sandbox example_set_range
    = Some ({| error := 0; result := 0 |}, Adaptor.global_pagemap a', s')
    /\ shared_page s' = Adaptor.shared_page a'
    /\ memory_provider s' = memory_provider example_sandbox.
Proof.
  apply (@accepted_range_call_is_adaptor_update flat_snmalloc
           null_when_empty reserve_nothing
           (∅ : FlatChunkMap) example_sandbox example_set_range).
  - exact example_provider_wf.
  - unfold well_formed, is_word. closed_arith.
  - left. reflexivity.
  - reflexivity.
Defined.

Lemma send_returns_on_completion_witness :
  Call.send example_call 3 (2 ^ 32)
    (repeat Call.Works 2 ++ Call.Completes :: [Call.Works])
  = Call.Returns
      {| Call.function_index := 3; Call.msg_buffer := 2 ^ 32;
         Call.is_child_executing := false; Call.child_proc := 4242;
         Call.child_exited := false; Call.child_status := 0;
         Call.child := Call.Running |}.
Proof.
  apply (send_returns_on_completion example_call 3 (2 ^ 32) 2 [Call.Works]);
    reflexivity.
Defined.

Lemma send_waits_for_working_child_witness :
  Call.send example_call 3 (2 ^ 32) (repeat Call.Works 5)
  = Call.Waiting
      {| Call.function_index := 3; Call.msg_buffer := 2 ^ 32;
         Call.is_child_executing := true; Call.child_proc := 4242;
         Call.child_exited := false; Call.child_status := 0;
         Call.child := Call.Running |}.
Proof.
  apply (send_waits_for_working_child example_call 3 (2 ^ 32) 5);
    reflexivity.
Defined.

Lemma send_after_reported_exit_ends_host_witness :
  exists w',
    Call.send example_call 3 (2 ^ 32)
      (repeat Call.Works 2 ++ Call.Dies 139 :: [])
    = Call.Throws w'
    /\ Call.send w' 4 (2 ^ 32) (Call.Works :: []) = Call.HostExits.
Proof.
  apply (send_after_reported_exit_ends_host example_call 3 (2 ^ 32) 2 139 []
           4 (2 ^ 32) Call.Works []); reflexivity.
Defined.

Lemma signalled_child_recorded_as_status_zero_witness :
  exists w',
    Call.send example_call 3 (2 ^ 32)
      (repeat Call.Works 1 ++ Call.Dies 11 :: [])
    = Call.Throws w'
    /\ Call.child_status w' = 0.
Proof.
  apply (signalled_child_recorded_as_status_zero example_call 3 (2 ^ 32)
           1 11 []); try reflexivity. closed_arith.
Defined.

Lemma deadline_is_not_normalised_witness :
  let now := {| Call.tv_sec := 5; Call.tv_nsec := 999950000 |} in
  let timeout := {| Call.tv_sec := 0; Call.tv_nsec := 100000 |} in
  10 ^ 9 <= Call.tv_nsec (Call.deadline now timeout)
  /\ Call.tv_sec (Call.deadline now timeout)
     = Call.tv_sec now + Call.tv_sec timeout.
Proof.
  intros now timeout.
  apply (deadline_is_not_normalised now timeout); closed_arith.
Defined.

Lemma shutdown_after_reported_exit_witness :
  exists w',
    Call.send example_call 3 (2 ^ 32)
      (repeat Call.Works 2 ++ Call.Dies 256 :: [])
    = Call.Throws w'
    /\ Lifecycle.wait_for_child_exit w' false None
       = Call.Returns (Call.WEXITSTATUS 256, false, w').
Proof.
  apply (shutdown_after_reported_exit example_call 3 (2 ^ 32) 2 256 []
           false None); reflexivity.
Defined.

Lemma first_shutdown_returns_one_witness :
  exists w',
    Lifecycle.wait_for_child_exit example_call false (Some 0)
    = Call.Returns (1, true, w')
    /\ Call.is_child_executing w' = true
    /\ Call.child w' = Call.Reaped
    /\ Call.child_status w' = Call.WEXITSTATUS 0
    /\ Lifecycle.wait_for_child_exit w' true None
       = Call.Returns (Call.WEXITSTATUS 0, true, w').
Proof.
  apply (first_shutdown_returns_one example_call false 0 None); reflexivity.
Defined.

Lemma unopened_descriptor_hangs_launcher_witness :
  Launcher.move_fd string 40 forked_table 9 = Launcher.Unfinished
  /\ Launcher.start_child string every_file 40 forked_table "/opt/libfoo.so"
       4 6 8 9 = Launcher.Unfinished.
Proof.
  apply (unopened_descriptor_hangs_launcher every_file forked_table 9).
  - reflexivity.
  - closed_arith.
Defined.

Lemma library_not_found_exits_witness :
  Launcher.start_child string (every_file_but "/opt/libfoo.so") 12
    forked_table "/opt/libfoo.so" 4 6 8 3
  = Launcher.Exit (-1).
Proof.
  apply (library_not_found_exits (every_file_but "/opt/libfoo.so") 12
           forked_table "/opt/libfoo.so" 4 6 8 3
           "shm" "pagemap" "rpc-child" "fd-child").
  - lia.
  - reflexivity.
  - reflexivity.
  - reflexivity.
  - reflexivity.
  - reflexivity.
Defined.

Lemma missing_library_directory_aborts_witness :
  Launcher.start_child string (every_file_but "/usr/local/lib") 12
    forked_table "/opt/libfoo.so" 4 6 8 3
  = Launcher.Exit 134.
Proof.
  apply (missing_library_directory_aborts (every_file_but "/usr/local/lib") 12
           forked_table "/opt/libfoo.so" 4 6 8 3
           "shm" "pagemap" "rpc-child" "fd-child" "/opt/libfoo.so").
  - lia.
  - reflexivity.
  - reflexivity.
  - reflexivity.
  - reflexivity.
  - reflexivity.
  - unfold Launcher.libdirs. do 2 apply Exists_cons_tl. apply Exists_cons_hd.
    reflexivity.
Defined.

Lemma free_standard_descriptor_receives_shared_heap_witness :
  Launcher.fd_lookup string
    [Some "shm"; Some "stdout"; Some "stderr"; Some "shm"; Some "pagemap";
     Some "fd-child"; Some "/opt/libfoo.so"; Some "rpc-child";
     Some "/lib"; Some "/usr/lib"; Some "/usr/local/lib"]
    (Z.of_nat (Launcher.lowest_free string forked_table_without_stdin))
  = Some "shm".
Proof.
  apply (free_standard_descriptor_receives_shared_heap every_file 12
           forked_table_without_stdin "/opt/libfoo.so" 4 6 8 3 "shm").
  - reflexivity.
  - reflexivity.
  - closed_arith.
  - closed_arith.
Defined.

Lemma location_fits_buffer_witness :
  Location.loc_len (2 ^ 64 - 1) (2 ^ 64 - 1) <= 50
  /\ Location.loc_len (2 ^ 64 - 1) (2 ^ 64 - 1) < Location.location_size.
Proof.
  apply (location_fits_buffer (2 ^ 64 - 1) (2 ^ 64 - 1));
    unfold is_word; closed_arith.
Defined.

Lemma location_determines_address_and_size_witness :
  2 ^ 46 = 70368744177664 /\ 2 ^ 30 = 1073741824.
Proof.
  apply (location_determines_address_and_size
           (2 ^ 46) (2 ^ 30) 70368744177664 1073741824); closed_arith.
Defined.
